(** * EDH deck data compiler: a shallow embedding of the acquisition and
      normalization pipeline, and the properties checked against it.

    The development follows the layout of the Python sources:

    - [PyStr]        the [str] operations the sources call
    - [Scryfall]     src/normalization/scryfall.py
    - [Database]     src/db/database.py
    - [Normalizer]   src/normalization/normalizer.py
    - [BaseAdapter]  src/adapters/base_adapter.py
    - [Archidekt]    src/adapters/archidekt.py
    - [IngestionJob] src/orchestration/ingestion_job.py

    Python dictionaries are finite maps ([gmap]), [set] is [gset], [str] is
    a list of Unicode code points, [int] is [Z].  Calls that leave the
    process (HTTP, the file system, the clock, the random generator) are
    read from an explicit environment, and every function that mutates
    [self] or the database returns the new state. *)

From Stdlib Require Import ZArith NArith QArith Qpower Lqa Ascii String Lia.
From stdpp Require Import gmap strings list fin_maps.

#[local] Open Scope Z_scope.
#[local] Set Warnings "-clear-no-such-hyp".

(** A Python [str]: the sequence of its code points. *)
Abbreviation pystr := (list N).

(* ===================================================================== *)
(** ** Python string operations *)
(* ===================================================================== *)

Module PyStr.

(** An ASCII literal as a [str]. *)
Definition str (s : string) : pystr :=
  (fun a => N_of_ascii a) <$> list_ascii_of_string s.

(** [str.isspace] on one code point (the code points [str.split()] and
    [str.strip()] treat as separators). *)
Definition is_space (c : N) : bool :=
  ((9 <=? c) && (c <=? 13) || (28 <=? c) && (c <=? 32)
   || (c =? 133) || (c =? 160) || (c =? 5760)
   || (8192 <=? c) && (c <=? 8202)
   || (c =? 8232) || (c =? 8233) || (c =? 8239) || (c =? 8287)
   || (c =? 12288))%N.

(** [str.lower] on one code point.  Exact for code points below U+0100
    (A-Z, and the Latin-1 capitals U+00C0..U+00DE without the
    multiplication sign U+00D7); code points from U+0100 on are left
    as they are. *)
Definition lower_cp (c : N) : N :=
  (if (65 <=? c) && (c <=? 90)
      || (192 <=? c) && (c <=? 214)
      || (216 <=? c) && (c <=? 222)
   then c + 32 else c)%N.

Definition lower (s : pystr) : pystr := lower_cp <$> s.

(** [s.startswith(pre)] *)
Fixpoint starts_with (pre s : pystr) : bool :=
  match pre, s with
  | [], _ => true
  | _ :: _, [] => false
  | a :: pre', b :: s' => (a =? b)%N && starts_with pre' s'
  end.

(** [sub in s] *)
Fixpoint contains (sub s : pystr) : bool :=
  starts_with sub s ||
  match s with
  | [] => false
  | _ :: s' => contains sub s'
  end.

(** [s.split()]: the maximal runs of non-space code points. [cur] holds
    the run being read, reversed. *)
Fixpoint split_ws_from (cur s : pystr) : list pystr :=
  match s with
  | [] => match cur with [] => [] | _ => [rev cur] end
  | c :: s' =>
      if is_space c
      then match cur with
           | [] => split_ws_from [] s'
           | _ => rev cur :: split_ws_from [] s'
           end
      else split_ws_from (c :: cur) s'
  end.

Definition split_ws (s : pystr) : list pystr := split_ws_from [] s.

(** [sep.join(words)] *)
Fixpoint join (sep : pystr) (words : list pystr) : pystr :=
  match words with
  | [] => []
  | [w] => w
  | w :: ws => w ++ sep ++ join sep ws
  end.

(** [s.replace(old, new)] for a non-empty [old]: leftmost,
    non-overlapping occurrences. [skip] counts the code points of a
    matched occurrence still to be passed over. *)
Fixpoint replace_from (old new : pystr) (skip : nat) (s : pystr) : pystr :=
  match s with
  | [] => []
  | c :: s' =>
      match skip with
      | S k => replace_from old new k s'
      | O =>
          if starts_with old s
          then new ++ replace_from old new (length old - 1) s'
          else c :: replace_from old new 0 s'
      end
  end.

(** [s.replace(old, new)].  With an empty [old] Python puts [new] before
    every code point and at the end: ['abc'.replace('', '-')] is
    ['-a-b-c-'] and [''.replace('', '-')] is ['-']. *)
Definition replace (old new s : pystr) : pystr :=
  match old with
  | [] => new ++ flat_map (fun c => c :: new) s
  | _ :: _ => replace_from old new 0 s
  end.

(** [s.split(sep)] for a non-empty [sep]; the result is never empty. *)
Fixpoint split_from (sep : pystr) (skip : nat) (cur s : pystr) : list pystr :=
  match s with
  | [] => [rev cur]
  | c :: s' =>
      match skip with
      | S k => split_from sep k cur s'
      | O =>
          if starts_with sep s
          then rev cur :: split_from sep (length sep - 1) [] s'
          else split_from sep 0 (c :: cur) s'
      end
  end.

Definition split (sep s : pystr) : list pystr := split_from sep 0 [] s.

Fixpoint lstrip (s : pystr) : pystr :=
  match s with
  | [] => []
  | c :: s' => if is_space c then lstrip s' else s
  end.

(** [s.strip()] *)
Definition strip (s : pystr) : pystr := rev (lstrip (rev (lstrip s))).

(** [str.isdigit] on one code point, exact below U+0100: the ASCII
    digits and the superscripts U+00B2, U+00B3, U+00B9. *)
Definition is_digit_cp (c : N) : bool :=
  ((48 <=? c) && (c <=? 57) || (c =? 178) || (c =? 179) || (c =? 185))%N.

(** [s.isdigit()]: non-empty and every code point a digit. *)
Definition isdigit (s : pystr) : bool :=
  match s with
  | [] => false
  | _ => forallb is_digit_cp s
  end.

End PyStr.

(* ===================================================================== *)
(** ** src/normalization/scryfall.py *)
(* ===================================================================== *)

Module Scryfall.
Import PyStr.

(** One face of a card of the bulk file; [face.get('name')]. *)
Record Face := { face_name : option pystr }.

(** One card object of the bulk file.  A field is [None] when the key
    is missing from the JSON object. *)
Record Card := {
  card_oracle_id : option pystr;
  card_name : option pystr;
  card_faces : option (list Face);
  printed_name : option pystr
}.

(** The content of the local bulk file: a JSON array of cards, or
    something [json.load] rejects. *)
Inductive BulkFile :=
| Corrupt
| Cards (cards : list Card).

(** What [download_oracle_bulk] and [build_name_resolver] see outside
    the process: the local file with its modification time, and the
    remote endpoint, which either fails or answers with [updated_at]
    and a download that fails or delivers a file. *)
Record World := {
  local_bulk : option (Z * BulkFile);
  remote_bulk : option (Z * option BulkFile)
}.

(** [self.oracle_cache] and [self.last_updated]. *)
Record ScryfallNormalizer := {
  oracle_cache : gmap pystr pystr;
  last_updated : option Z
}.

(** [__init__] *)
Definition init : ScryfallNormalizer :=
  {| oracle_cache := ∅; last_updated := None |}.

(** [download_oracle_bulk]: [False] when a request fails; [True]
    without a download when the local file is at least as recent as
    the remote one; otherwise the file is replaced. *)
Definition download_oracle_bulk (now : Z) (w : World) : bool * World :=
  match remote_bulk w with
  | None => (false, w)
  | Some (updated_at, download) =>
      let up_to_date :=
        match local_bulk w with
        | Some (mtime, _) => bool_decide (updated_at <= mtime)
        | None => false
        end in
      if up_to_date then (true, w)
      else match download with
           | None => (false, w)
           | Some file =>
               (true, {| local_bulk := Some (now, file);
                         remote_bulk := remote_bulk w |})
           end
  end.

(** [_normalize_name].  230 and 233 are the code points of the ae
    ligature and of the e with an acute accent; the third [replace] of
    the source has the empty string as the text to replace; the pattern
    of [re.sub] is a character class that holds the double quote (34)
    only, and the replacement is the double quote. *)
Definition _normalize_name (name : pystr) : pystr :=
  match name with
  | [] => []
  | _ =>
      let normalized := lower name in
      let normalized := join (str " ") (split_ws normalized) in
      let normalized := replace [230%N] (str "ae") normalized in
      let normalized := replace [233%N] (str "e") normalized in
      let normalized := replace [] (str "'") normalized in
      let normalized := replace [34%N] [34%N] normalized in
      normalized
  end.

(** The body of [for face in card['card_faces']]. *)
Definition add_faces (oid : pystr) (faces : list Face)
    (cache : gmap pystr pystr) : gmap pystr pystr :=
  foldl (fun c face =>
           match face_name face with
           | Some (x :: fname) => <[_normalize_name (x :: fname) := oid]> c
           | _ => c
           end) cache faces.

(** The body of [for part in parts] for a split card. *)
Definition add_parts (oid : pystr) (parts : list pystr)
    (cache : gmap pystr pystr) : gmap pystr pystr :=
  foldl (fun c part => <[_normalize_name part := oid]> c) cache parts.

(** The body of [for card in cards]; [None] when [card['oracle_id']] or
    [card['name']] raises [KeyError]. *)
Definition add_card (cache : gmap pystr pystr) (card : Card)
    : option (gmap pystr pystr) :=
  match card_oracle_id card with
  | None => None
  | Some oid =>
      match card_name card with
      | None => None
      | Some name =>
          let cache := <[_normalize_name name := oid]> cache in
          let cache :=
            match card_faces card with
            | Some faces => add_faces oid faces cache
            | None => cache
            end in
          let cache :=
            if contains (str "//") name
            then add_parts oid (strip <$> split (str "//") name) cache
            else cache in
          let cache :=
            match printed_name card with
            | Some (x :: pname) => <[_normalize_name (x :: pname) := oid]> cache
            | _ => cache
            end in
          Some cache
      end
  end.

(** The loop of [build_name_resolver]: the cache reached, and whether
    the loop ran to its end. *)
Fixpoint add_cards (cache : gmap pystr pystr) (cards : list Card)
    : gmap pystr pystr * bool :=
  match cards with
  | [] => (cache, true)
  | card :: rest =>
      match add_card cache card with
      | None => (cache, false)
      | Some cache' => add_cards cache' rest
      end
  end.

(** [build_name_resolver] *)
Definition build_name_resolver (now : Z) (st : ScryfallNormalizer) (w : World)
    : bool * ScryfallNormalizer * World :=
  let '(present, w) :=
    match local_bulk w with
    | Some _ => (true, w)
    | None => download_oracle_bulk now w
    end in
  if negb present then (false, st, w)
  else
    (* self.oracle_cache.clear() comes before the file is opened *)
    match local_bulk w with
    | None | Some (_, Corrupt) =>
        (false, {| oracle_cache := ∅; last_updated := last_updated st |}, w)
    | Some (_, Cards cards) =>
        let '(cache, ok) := add_cards ∅ cards in
        if ok
        then (true, {| oracle_cache := cache; last_updated := Some now |}, w)
        else (false, {| oracle_cache := cache;
                        last_updated := last_updated st |}, w)
    end.

(** The [variations] list of [resolve_card_name]. *)
Definition variations (normalized : pystr) : list pystr :=
  [ replace [34%N] [] normalized;
    replace (str "'") [] normalized;
    replace (str "'") (str "'") normalized;
    replace (str ",") [] normalized ].

(** [for variation in variations: if variation in self.oracle_cache]:
    the value under the first variation that is a key. *)
Fixpoint first_hit (cache : gmap pystr pystr) (vs : list pystr)
    : option pystr :=
  match vs with
  | [] => None
  | v :: vs' =>
      match cache !! v with
      | Some oid => Some oid
      | None => first_hit cache vs'
      end
  end.

Definition basic_lands : gmap pystr pystr :=
  list_to_map
    [ (str "plains", str "bc71ebf6-2056-41f7-be35-b2e5c34afa99");
      (str "island", str "8cff7b58-bd58-4911-a6a3-bdd1dbf71a72");
      (str "swamp", str "a3fb7228-e76b-4e96-a40e-20b5fed75685");
      (str "mountain", str "8cf3dce3-01e4-4fe2-ac44-b13b6fe8799e");
      (str "forest", str "b34bb2dc-c1af-4d77-b0b3-a0fb342a5fc6") ].

(** What [resolve_card_name] does once the cache is there. *)
Definition lookup_name (st : ScryfallNormalizer) (name : pystr)
    : option pystr * ScryfallNormalizer :=
  let normalized := _normalize_name name in
  match oracle_cache st !! normalized with
  | Some oid => (Some oid, st)
  | None =>
      match first_hit (oracle_cache st) (variations normalized) with
      | Some oid =>
          (Some oid, {| oracle_cache := <[normalized := oid]> (oracle_cache st);
                        last_updated := last_updated st |})
      | None =>
          match basic_lands !! normalized with
          | Some oid =>
              (Some oid,
               {| oracle_cache := <[normalized := oid]> (oracle_cache st);
                  last_updated := last_updated st |})
          | None => (None, st)
          end
      end
  end.

(** [resolve_card_name] *)
Definition resolve_card_name (now : Z) (st : ScryfallNormalizer) (w : World)
    (name : pystr) : option pystr * ScryfallNormalizer * World :=
  if decide (oracle_cache st = ∅)
  then
    let '(ok, st, w) := build_name_resolver now st w in
    if ok
    then let '(r, st) := lookup_name st name in (r, st, w)
    else (None, st, w)
  else let '(r, st) := lookup_name st name in (r, st, w).

(** [needs_refresh]; times are in seconds. *)
Definition needs_refresh (refresh_cadence_hours now : Z)
    (st : ScryfallNormalizer) : bool :=
  match last_updated st with
  | None => true
  | Some t => bool_decide (refresh_cadence_hours * 3600 < now - t)
  end.

End Scryfall.

(* ===================================================================== *)
(** ** src/db/database.py *)
(* ===================================================================== *)

Module Database.
Import PyStr.

(** A card dictionary of a normalized deck: ['name'] is required,
    ['qty'], ['oracle_id'] and ['zone'] are read with [.get]. *)
Record CardEntry := {
  ce_name : pystr;
  ce_qty : option Z;
  ce_oracle_id : option pystr;
  ce_zone : option pystr
}.

(** A commander dictionary of a normalized deck. *)
Record CommanderRef := {
  cmd_name : pystr;
  cmd_oracle_id : option pystr
}.

(** The dictionary an adapter returns for one deck. ['extra'] is kept
    as its JSON text. *)
Record NormalizedDeck := {
  source_deck_id : pystr;
  title : option pystr;
  author : option pystr;
  url : option pystr;
  format : option pystr;
  cards : list CardEntry;
  commanders : list CommanderRef;
  extra : option pystr
}.

(** Rows of the tables.  The schema file is not among the sources:
    columns are the ones the statements of database.py name, a column
    an INSERT leaves out is [None], and a new row gets one more than
    the largest id of its table. *)
Record DeckRow := {
  deck_id : Z;
  deck_source_id : Z;
  deck_source_deck_id : pystr;
  deck_format : pystr;
  deck_title : option pystr;
  deck_author : option pystr;
  deck_url : option pystr;
  deck_extra : pystr;
  deck_updated_at : option Z;
  deck_last_seen_at : option Z;
  deck_fetched_at : Z
}.

Record CardRow := {
  dc_deck_id : Z;
  dc_name : pystr;
  dc_qty : Z;
  dc_oracle_id : option pystr;
  dc_zone : pystr
}.

Record CommanderRow := {
  dcm_deck_id : Z;
  dcm_oracle_id : option pystr;
  dcm_name : pystr
}.

Record UnmappedRow := {
  um_name : pystr;
  um_frequency : Z;
  um_first_seen : Z;
  um_last_seen : Z
}.

Inductive Status := success | partial | error | skipped.

(** A row of [ingestion_logs]. *)
Record JobRun := {
  source_name : pystr;
  operation : pystr;
  status : Status;
  decks_processed : Z;
  cards_processed : Z;
  errors_count : Z;
  http_429_count : Z;
  duration_seconds : Z;
  message : option pystr
}.

Record Database := {
  sources : list (Z * pystr);
  decks : list DeckRow;
  deck_cards : list CardRow;
  deck_commanders : list CommanderRow;
  unmapped_cards : list UnmappedRow;
  ingestion_logs : list JobRun
}.

Definition empty_db : Database :=
  {| sources := []; decks := []; deck_cards := []; deck_commanders := [];
     unmapped_cards := []; ingestion_logs := [] |}.

(** [cursor.lastrowid] of an INSERT into a table whose ids are [ids]. *)
Definition next_id (ids : list Z) : Z := 1 + foldr Z.max 0 ids.

Definition set_sources (v : list (Z * pystr)) (db : Database) : Database :=
  {| sources := v; decks := decks db; deck_cards := deck_cards db;
     deck_commanders := deck_commanders db;
     unmapped_cards := unmapped_cards db;
     ingestion_logs := ingestion_logs db |}.

Definition set_decks (v : list DeckRow) (db : Database) : Database :=
  {| sources := sources db; decks := v; deck_cards := deck_cards db;
     deck_commanders := deck_commanders db;
     unmapped_cards := unmapped_cards db;
     ingestion_logs := ingestion_logs db |}.

Definition set_deck_cards (v : list CardRow) (db : Database) : Database :=
  {| sources := sources db; decks := decks db; deck_cards := v;
     deck_commanders := deck_commanders db;
     unmapped_cards := unmapped_cards db;
     ingestion_logs := ingestion_logs db |}.

Definition set_deck_commanders (v : list CommanderRow) (db : Database)
    : Database :=
  {| sources := sources db; decks := decks db; deck_cards := deck_cards db;
     deck_commanders := v;
     unmapped_cards := unmapped_cards db;
     ingestion_logs := ingestion_logs db |}.

Definition set_unmapped_cards (v : list UnmappedRow) (db : Database)
    : Database :=
  {| sources := sources db; decks := decks db; deck_cards := deck_cards db;
     deck_commanders := deck_commanders db;
     unmapped_cards := v;
     ingestion_logs := ingestion_logs db |}.

Definition set_ingestion_logs (v : list JobRun) (db : Database) : Database :=
  {| sources := sources db; decks := decks db; deck_cards := deck_cards db;
     deck_commanders := deck_commanders db;
     unmapped_cards := unmapped_cards db;
     ingestion_logs := v |}.

(** [get_source_id]: the id of the source row, inserted when absent. *)
Definition get_source_id (name : pystr) (db : Database) : Z * Database :=
  match List.find (fun r => bool_decide (r.2 = name)) (sources db) with
  | Some r => (r.1, db)
  | None =>
      let id := next_id (fst <$> sources db) in
      (id, set_sources (sources db ++ [(id, name)]) db)
  end.

(** The SELECT of [upsert_deck]. *)
Definition deck_matches (source_id : Z) (sdid : pystr) (r : DeckRow) : bool :=
  bool_decide (deck_source_id r = source_id) &&
  bool_decide (deck_source_deck_id r = sdid).

(** The UPDATE of [upsert_deck] on one row. *)
Definition refresh_deck (now : Z) (d : NormalizedDeck) (r : DeckRow) : DeckRow :=
  {| deck_id := deck_id r;
     deck_source_id := deck_source_id r;
     deck_source_deck_id := deck_source_deck_id r;
     deck_format := deck_format r;
     deck_title := title d;
     deck_author := author d;
     deck_url := url d;
     deck_extra := default (str "{}") (extra d);
     deck_updated_at := Some now;
     deck_last_seen_at := Some now;
     deck_fetched_at := now |}.

(** [upsert_deck] *)
Definition upsert_deck (now : Z) (source : pystr) (sdid : pystr)
    (d : NormalizedDeck) (db : Database) : Z * Database :=
  let '(source_id, db) := get_source_id source db in
  match List.find (deck_matches source_id sdid) (decks db) with
  | Some existing =>
      let id := deck_id existing in
      (id,
       set_decks
         ((fun r => if bool_decide (deck_id r = id)
                    then refresh_deck now d r else r) <$> decks db) db)
  | None =>
      let id := next_id (deck_id <$> decks db) in
      (id,
       set_decks
         (decks db ++
          [ {| deck_id := id;
               deck_source_id := source_id;
               deck_source_deck_id := sdid;
               deck_format := default (str "Commander") (format d);
               deck_title := title d;
               deck_author := author d;
               deck_url := url d;
               deck_extra := default (str "{}") (extra d);
               deck_updated_at := None;
               deck_last_seen_at := None;
               deck_fetched_at := now |} ]) db)
  end.

(** The tuple [insert_deck_cards] builds for one card. *)
Definition card_row (id : Z) (c : CardEntry) : CardRow :=
  {| dc_deck_id := id;
     dc_name := ce_name c;
     dc_qty := default 1 (ce_qty c);
     dc_oracle_id := ce_oracle_id c;
     dc_zone := default (str "main") (ce_zone c) |}.

(** [insert_deck_cards] *)
Definition insert_deck_cards (id : Z) (cs : list CardEntry)
    (clear_existing : bool) (db : Database) : Database :=
  let kept :=
    if clear_existing
    then List.filter (fun r => negb (bool_decide (dc_deck_id r = id)))
           (deck_cards db)
    else deck_cards db in
  set_deck_cards (kept ++ (card_row id <$> cs)) db.

Definition commander_row (id : Z) (c : CommanderRef) : CommanderRow :=
  {| dcm_deck_id := id; dcm_oracle_id := cmd_oracle_id c;
     dcm_name := cmd_name c |}.

(** [insert_deck_commanders] *)
Definition insert_deck_commanders (id : Z) (cs : list CommanderRef)
    (db : Database) : Database :=
  let kept :=
    List.filter (fun r => negb (bool_decide (dcm_deck_id r = id)))
      (deck_commanders db) in
  match cs with
  | [] => set_deck_commanders kept db
  | _ => set_deck_commanders (kept ++ (commander_row id <$> cs)) db
  end.

(** [log_unmapped_card]: insert with frequency 1, or on a name already
    there add 1 to its frequency and move [last_seen]. *)
Definition log_unmapped_card (now : Z) (name : pystr) (db : Database)
    : Database :=
  if existsb (fun r => bool_decide (um_name r = name)) (unmapped_cards db)
  then
    set_unmapped_cards
      ((fun r => if bool_decide (um_name r = name)
                 then {| um_name := um_name r;
                         um_frequency := um_frequency r + 1;
                         um_first_seen := um_first_seen r;
                         um_last_seen := now |}
                 else r) <$> unmapped_cards db) db
  else
    set_unmapped_cards
      (unmapped_cards db ++
       [ {| um_name := name; um_frequency := 1;
            um_first_seen := now; um_last_seen := now |} ]) db.

(** [log_ingestion] *)
Definition log_ingestion (run : JobRun) (db : Database) : Database :=
  set_ingestion_logs (ingestion_logs db ++ [run]) db.

(** A row of the result of [get_decks_needing_normalization]. *)
Record PendingCard := {
  pc_deck_id : Z;
  pc_name : pystr;
  pc_qty : Z;
  pc_zone : pystr
}.

#[global] Instance PendingCard_eq_dec : EqDecision PendingCard.
Proof. solve_decision. Defined.

(** LIMIT of SQLite: a negative limit is no limit. *)
Definition sql_limit {A} (limit : Z) (rows : list A) : list A :=
  if bool_decide (limit < 0) then rows else take (Z.to_nat limit) rows.

(** [get_decks_needing_normalization]: the distinct
    (deck_id, name, qty, zone) of the cards without an oracle id, in
    table order. *)
Definition get_decks_needing_normalization (limit : Z) (db : Database)
    : list PendingCard :=
  sql_limit limit
    (remove_dups
       ((fun r => {| pc_deck_id := dc_deck_id r; pc_name := dc_name r;
                     pc_qty := dc_qty r; pc_zone := dc_zone r |}) <$>
        List.filter (fun r => bool_decide (dc_oracle_id r = None))
          (deck_cards db))).

(** [update_card_oracle_id] *)
Definition update_card_oracle_id (id : Z) (name : pystr) (oid : pystr)
    (db : Database) : Database :=
  set_deck_cards
    ((fun r => if bool_decide (dc_deck_id r = id) &&
                  bool_decide (dc_name r = name)
               then {| dc_deck_id := dc_deck_id r; dc_name := dc_name r;
                       dc_qty := dc_qty r; dc_oracle_id := Some oid;
                       dc_zone := dc_zone r |}
               else r) <$> deck_cards db) db.

End Database.

(* ===================================================================== *)
(** ** src/normalization/normalizer.py *)
(* ===================================================================== *)

Module Normalizer.
Import PyStr Scryfall Database.

(** [self.scryfall] and [self.db], with the world outside them. *)
Record CardNormalizer := {
  scryfall : ScryfallNormalizer;
  world : World;
  db : Database
}.







(** One turn of the loop of [normalize_deck_cards]; [if oracle_id:] is
    false for [None] and for the empty string. *)
Definition normalize_card (now deck_id : Z)
    (acc : Z * Z * CardNormalizer) (card : CardEntry)
    : Z * Z * CardNormalizer :=
  let '(normalized_count, failed_count, cn) := acc in
  let card_name := ce_name card in
  let '(oracle_id, sc, w) :=
    resolve_card_name now (scryfall cn) (world cn) card_name in
  match oracle_id with
  | Some (c :: oid) =>
      (normalized_count + 1, failed_count,
       {| scryfall := sc; world := w;
          db := update_card_oracle_id deck_id card_name (c :: oid) (db cn) |})
  | Some [] | None =>
      (normalized_count, failed_count + 1,
       {| scryfall := sc; world := w;
          db := log_unmapped_card now card_name (db cn) |})
  end.

(** [normalize_deck_cards]: the pair of counts, and the state left. *)
Definition normalize_deck_cards (now deck_id : Z) (cards : list CardEntry)
    (cn : CardNormalizer) : Z * Z * CardNormalizer :=
  foldl (normalize_card now deck_id) (0, 0, cn) cards.



End Normalizer.

(* ===================================================================== *)
(** ** src/adapters/base_adapter.py *)
(* ===================================================================== *)

Module BaseAdapter.

(** [self.http_config]: ['max_retries'] and ['backoff_base']. *)
Record HttpConfig := {
  max_retries : Z;
  backoff_base : Q
}.

(** The value of the Retry-After header as [int] sees it. *)
Inductive RetryAfter :=
| HeaderAbsent
| HeaderInt (seconds : Z)
| HeaderOther.

Record Response := {
  status_code : Z;
  retry_after : RetryAfter;
  body : pystr
}.

(** The remote server and the random generator: the outcome of the
    [attempt]-th [self.session.get] ([None] when it raises a
    [RequestException]) and the jitter [random.uniform(0, 1)] drawn
    after it. *)
Record Remote := {
  get : nat -> option Response;
  jitter : nat -> Q
}.

Inductive Event :=
| EvPace                       (* self._rate_limit() *)
| EvGet (attempt : nat)        (* self.session.get(url, ...) *)
| EvCooldown (seconds : Z)     (* time.sleep(retry_after) *)
| EvBackoff (seconds : Q).     (* time.sleep(wait_time) *)

Inductive Outcome :=
| Returned (r : Response)      (* return response *)
| ReturnedNone                 (* the loop ends without a return *)
| RaisedRequestException       (* raise, after the last attempt *)
| RaisedValueError.            (* from int(...) or time.sleep(...) *)

(** [response.raise_for_status()] raises for 4xx and 5xx. *)
Definition is_http_error (r : Response) : bool :=
  (400 <=? status_code r) && (status_code r <? 600).

(** [int(response.headers.get('Retry-After', 60))]; [None] when [int]
    raises [ValueError]. *)
Definition retry_after_seconds (r : Response) : option Z :=
  match retry_after r with
  | HeaderAbsent => Some 60
  | HeaderInt n => Some n
  | HeaderOther => None
  end.

(** The [except requests.exceptions.RequestException] branch followed
    by the rest of the loop [continue_]. *)
Definition on_request_exception (cfg : HttpConfig) (env : Remote)
    (attempt : nat) (continue_ : Outcome * list Event)
    : Outcome * list Event :=
  if Z.of_nat attempt <? max_retries cfg
  then
    let wait_time :=
      (Qpower (backoff_base cfg) (Z.of_nat attempt) + jitter env attempt)%Q in
    if Qle_bool 0 wait_time
    then (continue_.1, EvGet attempt :: EvBackoff wait_time :: continue_.2)
    else (RaisedValueError, [EvGet attempt])
  else (RaisedRequestException, [EvGet attempt]).

(** [for attempt in range(max_retries + 1)], over the attempts still
    to come. *)
Fixpoint request_loop (cfg : HttpConfig) (env : Remote)
    (attempts : list nat) : Outcome * list Event :=
  match attempts with
  | [] => (ReturnedNone, [])
  | attempt :: rest =>
      match get env attempt with
      | None =>
          on_request_exception cfg env attempt (request_loop cfg env rest)
      | Some response =>
          if status_code response =? 429
          then
            match retry_after_seconds response with
            | None => (RaisedValueError, [EvGet attempt])
            | Some seconds =>
                if seconds <? 0
                then (RaisedValueError, [EvGet attempt])
                else
                  let '(out, events) := request_loop cfg env rest in
                  (out, EvGet attempt :: EvCooldown seconds :: events)
            end
          else if is_http_error response
          then on_request_exception cfg env attempt
                 (request_loop cfg env rest)
          else (Returned response, [EvGet attempt])
      end
  end.

(** [_make_request] *)
Definition _make_request (cfg : HttpConfig) (env : Remote)
    : Outcome * list Event :=
  let '(out, events) :=
    request_loop cfg env (seq 0 (Z.to_nat (max_retries cfg + 1))) in
  (out, EvPace :: events).

(** The requests issued. *)
Definition gets (events : list Event) : list nat :=
  omap (fun e => match e with EvGet a => Some a | _ => None end) events.

(** [self.rate_limit] and [self.last_request_time]; times are seconds
    on the clock of [time.time()]. *)
Record Pacer := {
  rate_limit : Q;
  last_request_time : Q
}.

(** What one call of [_rate_limit] meets outside: the clock at its first
    reading, the draw of [random.random()] behind the jitter, and the
    time that passes beyond the reading (and beyond the sleep asked for,
    when there is one) until the last reading of the clock. *)
Record Tick := {
  clock : Q;
  jitter_draw : Q;
  lateness : Q
}.

(** [_rate_limit]: the pacer left, and the sleep asked for, if any. *)
Definition _rate_limit (t : Tick) (p : Pacer) : Pacer * option Q :=
  if Qle_bool (rate_limit p) 0 then (p, None)
  else
    let elapsed := (clock t - last_request_time p)%Q in
    let min_interval := (1 / rate_limit p)%Q in
    if Qle_bool min_interval elapsed
    then
      ({| rate_limit := rate_limit p;
          last_request_time := (clock t + lateness t)%Q |}, None)
    else
      let sleep_time := (min_interval - elapsed)%Q in
      let sleep_time :=
        (sleep_time + (0 + (min_interval * (1 # 10) - 0) * jitter_draw t))%Q in
      ({| rate_limit := rate_limit p;
          last_request_time := (clock t + sleep_time + lateness t)%Q |},
       Some sleep_time).

(** The values [self.last_request_time] takes over a run of calls. *)
Fixpoint request_times (ticks : list Tick) (p : Pacer) : list Q :=
  match ticks with
  | [] => []
  | t :: rest =>
      let p' := (_rate_limit t p).1 in
      last_request_time p' :: request_times rest p'
  end.

End BaseAdapter.

(* ===================================================================== *)
(** ** src/adapters/archidekt.py *)
(* ===================================================================== *)

Module Archidekt.
Import PyStr.

(** [list(set(xs))].  Python leaves the order of the result open; the
    order of [elements] stands for it, and no statement below depends
    on it. *)
Definition list_set (xs : list pystr) : list pystr :=
  elements (list_to_set xs : gset pystr).

(** A search result page as the two extractors see it: the [href]s of
    its links in document order ([None] when the HTML parser raises),
    and the identifiers the fallback pattern captures. *)
Record SearchPage := {
  hrefs : option (list pystr);
  pattern_matches : list pystr
}.

(** The test on one [href], and the identifier it yields. *)
Definition deck_id_of_href (href : pystr) : option pystr :=
  if starts_with (str "/decks/") href && contains (str "/") (drop 7 href)
  then
    let parts := split (str "/") href in
    match parts !! 2%nat with
    | Some part => if (3 <=? length parts)%nat && isdigit part
                   then Some part else None
    | None => None
    end
  else None.

(** [_extract_deck_ids_with_regex] *)
Definition _extract_deck_ids_with_regex (page : SearchPage) : list pystr :=
  list_set (pattern_matches page).

(** [_extract_deck_ids_from_html] *)
Definition _extract_deck_ids_from_html (page : SearchPage) : list pystr :=
  match hrefs page with
  | Some links => list_set (omap deck_id_of_href links)
  | None => _extract_deck_ids_with_regex page
  end.

(** The search endpoint and the random generator: the page the request
    for page [p] returns ([None] when the request fails), and the value
    of [random.random()] for the delay taken after page [p]. *)
Record Remote := {
  search : Z -> option SearchPage;
  random : Z -> Q
}.

(** [discover_deck_ids_by_commander]: every failure is an empty list. *)
Definition discover_deck_ids_by_commander (env : Remote) (page : Z)
    : list pystr :=
  match search env page with
  | Some p => _extract_deck_ids_from_html p
  | None => []
  end.

(** [random.uniform(a, b)] for the draw [r] of [random.random()]. *)
Definition uniform (a b r : Q) : Q := (a + (b - a) * r)%Q.

Inductive Event :=
| EvFetch (page : Z)           (* self.discover_deck_ids_by_commander *)
| EvSleep (delay : Q).         (* time.sleep(delay) *)

(** The variables of the [while] loop, with the calls made so far. *)
Record Paging := {
  page : Z;
  all_deck_ids : list pystr;
  events : list Event
}.

(** [while page <= max_pages]; [None] when [fuel] runs out before the
    loop ends. *)
Fixpoint paging_loop (fuel : nat) (env : Remote) (max_pages : Z)
    (politeness_seconds : Q) (st : Paging) : option Paging :=
  if negb (page st <=? max_pages) then Some st
  else
    match fuel with
    | O => None
    | S fuel' =>
        let page_deck_ids := discover_deck_ids_by_commander env (page st) in
        let fetched := events st ++ [EvFetch (page st)] in
        match page_deck_ids with
        | [] =>
            Some {| page := page st; all_deck_ids := all_deck_ids st;
                    events := fetched |}
        | _ :: _ =>
            let all := all_deck_ids st ++ page_deck_ids in
            if page st >=? max_pages
            then Some {| page := page st; all_deck_ids := all;
                         events := fetched |}
            else
              if page st <? max_pages
              then
                let delay :=
                  uniform (politeness_seconds / 2) politeness_seconds
                    (random env (page st)) in
                if Qle_bool 0 delay
                then paging_loop fuel' env max_pages politeness_seconds
                       {| page := page st + 1; all_deck_ids := all;
                          events := fetched ++ [EvSleep delay] |}
                else
                  (* time.sleep raises ValueError: except, break *)
                  Some {| page := page st; all_deck_ids := all;
                          events := fetched |}
              else paging_loop fuel' env max_pages politeness_seconds
                     {| page := page st + 1; all_deck_ids := all;
                        events := fetched |}
        end
    end.

(** [discover_top_viewed_deck_ids_by_commander]: the list returned and
    the calls made. *)
Definition discover_top_viewed_deck_ids_by_commander (env : Remote)
    (max_pages : Z) (politeness_seconds : Q)
    : option (list pystr * list Event) :=
  match paging_loop (Z.to_nat max_pages) env max_pages politeness_seconds
          {| page := 1; all_deck_ids := []; events := [] |} with
  | Some st => Some (list_set (all_deck_ids st), events st)
  | None => None
  end.

Definition fetched_pages (evs : list Event) : list Z :=
  omap (fun e => match e with EvFetch p => Some p | _ => None end) evs.

(** One entry of the ['cards'] list of an Archidekt deck payload: the
    name and oracle id of its ['card'] object, its ['quantity'] and its
    ['categories']; [None] is a missing key. *)
Record RawCard := {
  raw_card_name : option pystr;
  raw_oracle_id : option pystr;
  raw_quantity : option Z;
  raw_categories : option (list pystr)
}.

(** An Archidekt deck payload: [str] of its ['id'] ([None] when the key
    is missing), its name, the user name of its owner, its cards, and
    the JSON text of the ['extra'] dictionary built from its counters
    and dates. *)
Record RawDeck := {
  raw_id : option pystr;
  raw_name : option pystr;
  raw_owner : option pystr;
  raw_cards : list RawCard;
  raw_extra : pystr
}.





(** [get_total_pages]: [count] is [data.get('count', 0)] of the answer,
    [None] when the request fails; a division by zero is caught like
    any other failure. *)
Definition get_total_pages (count : option Z) (page_size : Z) : Z :=
  match count with
  | None => 0
  | Some total_count =>
      if page_size =? 0 then 0
      else (total_count + page_size - 1) `div` page_size
  end.

End Archidekt.

(* ===================================================================== *)
(** ** src/adapters/moxfield.py *)
(* ===================================================================== *)

Module Moxfield.
Import PyStr Database.

(** One value of the ['commanders'] or ['mainboard'] dictionary of a
    Moxfield deck payload: the name and oracle id of its ['card']
    object, and its ['quantity']. *)
Record RawEntry := {
  entry_name : option pystr;
  entry_oracle_id : option pystr;
  entry_quantity : option Z
}.

(** A Moxfield deck payload: the values of its two dictionaries in
    their order, and the JSON text of the ['extra'] dictionary. *)
Record RawDeck := {
  raw_name : option pystr;
  raw_user_name : option pystr;
  raw_format : option pystr;
  raw_commanders : list RawEntry;
  raw_mainboard : list RawEntry;
  raw_extra : pystr
}.

(** [commander_info] *)
Definition commander_info (e : RawEntry) : CommanderRef :=
  {| cmd_name := default [] (entry_name e);
     cmd_oracle_id := entry_oracle_id e |}.

(** [card_entry] of a mainboard value *)
Definition main_entry (e : RawEntry) : CardEntry :=
  {| ce_name := default [] (entry_name e);
     ce_qty := Some (default 1 (entry_quantity e));
     ce_oracle_id := entry_oracle_id e;
     ce_zone := Some (str "main") |}.

(** [cmd_entry] of a commander *)
Definition cmd_entry (c : CommanderRef) : CardEntry :=
  {| ce_name := cmd_name c;
     ce_qty := Some 1;
     ce_oracle_id := cmd_oracle_id c;
     ce_zone := Some (str "command") |}.

(** [normalize_moxfield_deck] *)
Definition normalize_moxfield_deck (raw : RawDeck) (deck_id : pystr)
    : NormalizedDeck :=
  let commanders := commander_info <$> raw_commanders raw in
  {| source_deck_id := deck_id;
     title := Some (default [] (raw_name raw));
     author := Some (default [] (raw_user_name raw));
     url := Some (str "https://www.moxfield.com/decks/" ++ deck_id);
     format := Some (default (str "commander") (raw_format raw));
     cards := (main_entry <$> raw_mainboard raw) ++ (cmd_entry <$> commanders);
     commanders := commanders;
     extra := Some (raw_extra raw) |}.

(** [total_main] of the validation step. *)
Definition total_main (d : NormalizedDeck) : Z :=
  foldr Z.add 0
    (default 1 <$> (ce_qty <$>
       List.filter (fun c => bool_decide (ce_zone c = Some (str "main")))
         (cards d))).

End Moxfield.

(* ===================================================================== *)
(** ** src/orchestration/ingestion_job.py *)
(* ===================================================================== *)

Module IngestionJob.
Import PyStr Database.

(** What [adapter.fetch_deck(deck_id)] does for one unit of work. *)
Inductive FetchResult :=
| FetchRaises
| FetchNone
| FetchDeck (d : NormalizedDeck).

(** The Moxfield adapter as the job uses it: the outcome of the [i]-th
    [fetch_deck] call of a run, and the outcome of [discover_decks]
    (the text of the exception when it raises). *)
Record MoxfieldAdapter := {
  fetch_deck : nat -> pystr -> FetchResult;
  discover_decks : pystr + list pystr
}.

(** [self.adapters.get('moxfield')] and [self.db]. *)
Record Job := {
  moxfield : option MoxfieldAdapter;
  db : Database
}.

(** The dictionary a job returns. *)
Inductive JobResult :=
| JobSkipped (message : pystr)
| JobError (message : pystr)
| JobDiscovered (discovered_ids : list pystr)
| JobExported (decks_processed cards_processed errors : Z).

(** The ['status'] entry of the returned dictionary. *)
Definition result_status (r : JobResult) : Status :=
  match r with
  | JobSkipped _ => skipped
  | JobError _ => error
  | JobDiscovered _ | JobExported _ _ _ => success
  end.

(** The three database calls made for a fetched deck. *)
Definition persist_deck (now : Z) (source : pystr) (d : NormalizedDeck)
    (db : Database) : Database :=
  let '(id, db) := upsert_deck now source (source_deck_id d) d db in
  let db := insert_deck_cards id (cards d) true db in
  match commanders d with
  | [] => db
  | _ :: _ => insert_deck_commanders id (commanders d) db
  end.

(** [total_decks], [total_cards] and [errors]. *)
Record Totals := {
  total_decks : Z;
  total_cards : Z;
  errors : Z
}.

(** [for deck_id in processed_ids], from the [i]-th call on. *)
Fixpoint export_loop (now : Z) (adapter : MoxfieldAdapter) (i : nat)
    (ids : list pystr) (acc : Totals * Database) : Totals * Database :=
  match ids with
  | [] => acc
  | deck_id :: rest =>
      let '(t, db) := acc in
      let acc :=
        match fetch_deck adapter i deck_id with
        | FetchDeck deck_data =>
            ({| total_decks := total_decks t + 1;
                total_cards := total_cards t + Z.of_nat (length (cards deck_data));
                errors := errors t |},
             persist_deck now (str "moxfield") deck_data db)
        | FetchNone | FetchRaises =>
            ({| total_decks := total_decks t;
                total_cards := total_cards t;
                errors := errors t + 1 |}, db)
        end in
      export_loop now adapter (S i) rest acc
  end.

(** [run_moxfield_discovery] *)
Definition run_moxfield_discovery (duration : Z) (job : Job)
    : JobResult * Job :=
  match moxfield job with
  | None => (JobSkipped (str "Moxfield adapter not enabled"), job)
  | Some adapter =>
      match discover_decks adapter with
      | inr discovered_ids =>
          (JobDiscovered discovered_ids,
           {| moxfield := moxfield job;
              db := log_ingestion
                      {| source_name := str "moxfield";
                         operation := str "discovery";
                         status := success;
                         decks_processed := Z.of_nat (length discovered_ids);
                         cards_processed := 0; errors_count := 0;
                         http_429_count := 0; duration_seconds := duration;
                         message := None |} (db job) |})
      | inl e =>
          (JobError e,
           {| moxfield := moxfield job;
              db := log_ingestion
                      {| source_name := str "moxfield";
                         operation := str "discovery";
                         status := error;
                         decks_processed := 0;
                         cards_processed := 0; errors_count := 1;
                         http_429_count := 0; duration_seconds := duration;
                         message := Some e |} (db job) |})
      end
  end.

(** [deck_ids[:max_decks]] *)
Definition slice_to {A} (stop : Z) (l : list A) : list A :=
  if stop <? 0 then take (Z.to_nat (Z.of_nat (length l) + stop)) l
  else take (Z.to_nat stop) l.

(** [run_moxfield_export]; [deck_ids] is [None] for the default
    argument. *)
Definition run_moxfield_export (now duration : Z)
    (deck_ids : option (list pystr)) (max_decks : Z) (job : Job)
    : JobResult * Job :=
  match moxfield job with
  | None => (JobSkipped (str "Moxfield adapter not enabled"), job)
  | Some adapter =>
      let discovery :=
        match deck_ids with
        | Some (id :: ids) => (JobDiscovered (id :: ids), job)
        | Some [] | None => run_moxfield_discovery duration job
        end in
      match discovery with
      | (JobDiscovered deck_ids, job) =>
          let processed_ids := slice_to max_decks deck_ids in
          let '(t, db) :=
            export_loop now adapter 0 processed_ids
              ({| total_decks := 0; total_cards := 0; errors := 0 |},
               db job) in
          (JobExported (total_decks t) (total_cards t) (errors t),
           {| moxfield := moxfield job;
              db := log_ingestion
                      {| source_name := str "moxfield";
                         operation := str "export";
                         status := if errors t =? 0 then success else partial;
                         decks_processed := total_decks t;
                         cards_processed := total_cards t;
                         errors_count := errors t;
                         http_429_count := 0; duration_seconds := duration;
                         message := None |} db |})
      | other => other
      end
  end.

(** The Archidekt adapter as the job uses it: what
    [fetch_deck_bulk(page)] returns, [None] when it raises. *)
Record ArchidektAdapter := {
  fetch_deck_bulk : Z -> option (list NormalizedDeck)
}.

(** [for deck_data in decks] *)
Definition store_page (now : Z) (decks : list NormalizedDeck)
    (acc : Totals * Database) : Totals * Database :=
  foldl (fun '(t, db) deck_data =>
           ({| total_decks := total_decks t + 1;
               total_cards :=
                 total_cards t + Z.of_nat (length (cards deck_data));
               errors := errors t |},
            persist_deck now (str "archidekt") deck_data db))
    acc decks.

(** [for page in range(1, min(max_pages, 10) + 1)], over the pages
    still to come: a page whose fetch raises is counted as an error and
    the loop goes on, an empty page ends the loop. *)
Fixpoint incremental_loop (now : Z) (adapter : ArchidektAdapter)
    (pages : list Z) (acc : Totals * Database) : Totals * Database :=
  match pages with
  | [] => acc
  | page :: rest =>
      match fetch_deck_bulk adapter page with
      | None =>
          incremental_loop now adapter rest
            ({| total_decks := total_decks acc.1;
                total_cards := total_cards acc.1;
                errors := errors acc.1 + 1 |}, acc.2)
      | Some [] => acc
      | Some (d :: decks) =>
          incremental_loop now adapter rest (store_page now (d :: decks) acc)
      end
  end.

(** [run_archidekt_incremental]; [adapter] is [None] when the source is
    not enabled, [max_pages] is the configured value (50 by default). *)
Definition run_archidekt_incremental (now duration : Z)
    (adapter : option ArchidektAdapter) (max_pages : Z) (db : Database)
    : JobResult * Database :=
  match adapter with
  | None => (JobSkipped (str "Archidekt adapter not enabled"), db)
  | Some adapter =>
      let '(t, db) :=
        incremental_loop now adapter (seqZ 1 (Z.min max_pages 10))
          ({| total_decks := 0; total_cards := 0; errors := 0 |}, db) in
      (JobExported (total_decks t) (total_cards t) (errors t),
       log_ingestion
         {| source_name := str "archidekt";
            operation := str "incremental";
            status := if errors t =? 0 then success else partial;
            decks_processed := total_decks t;
            cards_processed := total_cards t;
            errors_count := errors t;
            http_429_count := 0; duration_seconds := duration;
            message := None |} db)
  end.


End IngestionJob.


(* ===================================================================== *)
(** ** src/crawler.py *)
(* ===================================================================== *)

Module Crawler.
Import PyStr.


End Crawler.

(* ===================================================================== *)
(** ** Definitions used in the statements *)
(* ===================================================================== *)

Module Scenario.
Import PyStr Scryfall.

(** The three spellings of the variation-equivalence property; 251 is
    the code point of the u with a circumflex. *)
Definition lim_dul_accented : pystr := str "Lim-D" ++ [251%N] ++ str "l's Hex".
Definition lim_dul_lower : pystr := str "lim-dul's hex".
Definition lim_dul_plain : pystr := str "Lim-Dul's Hex".

(** A bulk file with one card that has a name and an oracle id only, and
    no remote endpoint. *)
Definition one_card_world (name oid : pystr) : World :=
  {| local_bulk :=
       Some (0, Cards [ {| card_oracle_id := Some oid;
                           card_name := Some name;
                           card_faces := None;
                           printed_name := None |} ]);
     remote_bulk := None |}.

(** A bulk file without cards. *)
Definition empty_bulk_world : World :=
  {| local_bulk := Some (0, Cards []); remote_bulk := None |}.

(** No bulk file and no remote endpoint. *)
Definition offline_world : World :=
  {| local_bulk := None; remote_bulk := None |}.

(** The variation-equivalence property as the specification words it:
    with one reference entry for the card, each of the three names
    resolves to its id. *)
Definition name_variation_equivalence (reference_name oid : pystr) : Prop :=
  forall name,
    name ∈ [lim_dul_accented; lim_dul_lower; lim_dul_plain] ->
    (resolve_card_name 0 init (one_card_world reference_name oid) name).1.1
    = Some oid.

(** The basic-land property as the specification words it: whatever the
    index holds under other names, the name resolves to the id of the
    built-in table. *)
Definition basic_land_resolution (name oid : pystr) : Prop :=
  forall now st w,
    oracle_cache st !! _normalize_name name = None ->
    (resolve_card_name now st w name).1.1 = Some oid.

(** Resolving a list of names one after the other. *)
Fixpoint resolve_all (now : Z) (st : ScryfallNormalizer) (w : World)
    (names : list pystr) : ScryfallNormalizer * World :=
  match names with
  | [] => (st, w)
  | n :: rest =>
      let '(_, st, w) := resolve_card_name now st w n in
      resolve_all now st w rest
  end.


(** A rate-limit response with a cooldown, and a plain success. *)
Definition too_many_requests (seconds : Z) : BaseAdapter.Response :=
  {| BaseAdapter.status_code := 429;
     BaseAdapter.retry_after := BaseAdapter.HeaderInt seconds;
     BaseAdapter.body := [] |}.

Definition ok_response : BaseAdapter.Response :=
  {| BaseAdapter.status_code := 200;
     BaseAdapter.retry_after := BaseAdapter.HeaderAbsent;
     BaseAdapter.body := str "ok" |}.

(** A server that answers the attempts with the responses of a list
    ([None] for a connection error), and with a connection error from
    then on; the jitter is always a half second. *)
Definition scripted (answers : list (option BaseAdapter.Response))
    : BaseAdapter.Remote :=
  {| BaseAdapter.get := fun attempt => mjoin (answers !! attempt);
     BaseAdapter.jitter := fun _ => (1 # 2)%Q |}.



(** The delay taken after page [p] of a search. *)
Definition delay_after (env : Archidekt.Remote) (politeness_seconds : Q)
    (p : Z) : Q :=
  Archidekt.uniform (politeness_seconds / 2) politeness_seconds
    (Archidekt.random env p).

(** The calls of a search that fetches the pages of a list, in order:
    a sleep between one fetch and the next, none after the last. *)
Fixpoint schedule (delay : Z -> Q) (pages : list Z) : list Archidekt.Event :=
  match pages with
  | [] => []
  | p :: rest =>
      match rest with
      | [] => [Archidekt.EvFetch p]
      | _ :: _ =>
          Archidekt.EvFetch p :: Archidekt.EvSleep (delay p)
            :: schedule delay rest
      end
  end.

(** The identifiers on a page before any deduplication. *)
Definition raw_ids (pg : Archidekt.SearchPage) : list pystr :=
  match Archidekt.hrefs pg with
  | Some links => omap Archidekt.deck_id_of_href links
  | None => Archidekt.pattern_matches pg
  end.

(** A search endpoint that serves the pages of a list as pages 1, 2, ...
    and fails for any other page number. *)
Definition serving (pages : list Archidekt.SearchPage) (random : Z -> Q)
    : Archidekt.Remote :=
  {| Archidekt.search := fun p =>
       if bool_decide (1 <= p) then pages !! Z.to_nat (p - 1) else None;
     Archidekt.random := random |}.

(** A page whose links are given by their targets. *)
Definition page_of_links (links : list pystr) : Archidekt.SearchPage :=
  {| Archidekt.hrefs := Some links; Archidekt.pattern_matches := [] |}.

(** The rows of the three deck tables that belong to one deck. *)
Definition deck_rows (source_id : Z) (sdid : pystr) (db : Database.Database)
    : list Database.DeckRow :=
  List.filter (Database.deck_matches source_id sdid) (Database.decks db).

Definition card_rows (id : Z) (db : Database.Database)
    : list Database.CardRow :=
  List.filter (fun r => bool_decide (Database.dc_deck_id r = id))
    (Database.deck_cards db).

Definition commander_rows (id : Z) (db : Database.Database)
    : list Database.CommanderRow :=
  List.filter (fun r => bool_decide (Database.dcm_deck_id r = id))
    (Database.deck_commanders db).

(** A card and a commander as the Moxfield adapter writes them. *)
Definition main_card (name : pystr) : Database.CardEntry :=
  {| Database.ce_name := name; Database.ce_qty := Some 1;
     Database.ce_oracle_id := None; Database.ce_zone := Some (str "main") |}.

Definition command_card (name : pystr) : Database.CardEntry :=
  {| Database.ce_name := name; Database.ce_qty := Some 1;
     Database.ce_oracle_id := None;
     Database.ce_zone := Some (str "command") |}.

Definition commander (name : pystr) : Database.CommanderRef :=
  {| Database.cmd_name := name; Database.cmd_oracle_id := None |}.

(** A deck with the given source id, main cards and commanders; the
    commanders are among the cards, in the command zone. *)
Definition sample_deck (sdid : pystr) (mains cmds : list pystr)
    : Database.NormalizedDeck :=
  {| Database.source_deck_id := sdid;
     Database.title := Some (str "deck");
     Database.author := Some (str "author");
     Database.url := None;
     Database.format := Some (str "commander");
     Database.cards := (main_card <$> mains) ++ (command_card <$> cmds);
     Database.commanders := commander <$> cmds;
     Database.extra := None |}.


(** The key of a deck row, and the rows of the card and commander
    tables that belong to other decks than [id]. *)
Definition deck_key (r : Database.DeckRow) : Z * pystr :=
  (Database.deck_source_id r, Database.deck_source_deck_id r).

Definition other_card_rows (id : Z) (db : Database.Database)
    : list Database.CardRow :=
  List.filter (fun r => negb (bool_decide (Database.dc_deck_id r = id)))
    (Database.deck_cards db).

Definition other_commander_rows (id : Z) (db : Database.Database)
    : list Database.CommanderRow :=
  List.filter (fun r => negb (bool_decide (Database.dcm_deck_id r = id)))
    (Database.deck_commanders db).

(** The frequency recorded for a name in [unmapped_cards], 0 when the
    name is not there. *)
Definition unmapped_frequency (name : pystr) (db : Database.Database) : Z :=
  match List.find (fun r => bool_decide (Database.um_name r = name))
          (Database.unmapped_cards db) with
  | Some r => Database.um_frequency r
  | None => 0
  end.

(** The rows of [unmapped_cards] of one name, and the others. *)
Definition unmapped_rows (name : pystr) (db : Database.Database)
    : list Database.UnmappedRow :=
  List.filter (fun r => bool_decide (Database.um_name r = name))
    (Database.unmapped_cards db).

Definition other_unmapped_rows (name : pystr) (db : Database.Database)
    : list Database.UnmappedRow :=
  List.filter (fun r => negb (bool_decide (Database.um_name r = name)))
    (Database.unmapped_cards db).

(** What the conflict branch of [log_unmapped_card] does to a row. *)
Definition seen_again (now : Z) (r : Database.UnmappedRow)
    : Database.UnmappedRow :=
  {| Database.um_name := Database.um_name r;
     Database.um_frequency := Database.um_frequency r + 1;
     Database.um_first_seen := Database.um_first_seen r;
     Database.um_last_seen := now |}.

(** The keys the loop of [build_name_resolver] writes for one card, in
    the order it writes them: the name, the names of the faces that are
    not empty, the two sides of a name with "//", and a printed name
    that is not empty. *)
Definition card_keys (c : Card) : list pystr :=
  match card_name c with
  | None => []
  | Some name =>
      [_normalize_name name]
      ++ omap (fun face =>
                 match face_name face with
                 | Some (x :: fname) => Some (_normalize_name (x :: fname))
                 | _ => None
                 end) (default [] (card_faces c))
      ++ (if contains (str "//") name
          then _normalize_name <$> (strip <$> split (str "//") name)
          else [])
      ++ match printed_name c with
         | Some (x :: pname) => [_normalize_name (x :: pname)]
         | _ => []
         end
  end.

(** A card object that has both keys the loop requires. *)
Definition well_formed (c : Card) : Prop :=
  is_Some (card_oracle_id c) /\ is_Some (card_name c).

(** An Archidekt adapter that answers page 1, 2, ... with the entries
    of a list ([None] for a page whose fetch raises) and every later
    page with the empty list. *)
Definition paged_adapter (pages : list (option (list Database.NormalizedDeck)))
    : IngestionJob.ArchidektAdapter :=
  {| IngestionJob.fetch_deck_bulk := fun p =>
       if bool_decide (1 <= p)
       then default (Some []) (pages !! Z.to_nat (p - 1))
       else Some [] |}.

(** The job record of an export or an incremental run with the given
    counts. *)
Definition counted_run (source op : pystr) (d c e duration : Z)
    : Database.JobRun :=
  {| Database.source_name := source; Database.operation := op;
     Database.status := if e =? 0 then Database.success else Database.partial;
     Database.decks_processed := d; Database.cards_processed := c;
     Database.errors_count := e; Database.http_429_count := 0;
     Database.duration_seconds := duration; Database.message := None |}.

(** The sum of the frequencies of [unmapped_cards]. *)
Definition total_unmapped (db : Database.Database) : Z :=
  foldr Z.add 0 (Database.um_frequency <$> Database.unmapped_cards db).

(** What of a card row [update_card_oracle_id] never changes. *)
Definition card_identity (r : Database.CardRow) : Z * pystr * Z * pystr :=
  (Database.dc_deck_id r, Database.dc_name r, Database.dc_qty r,
   Database.dc_zone r).

(** The calls of a request whose attempts all fail with something
    other than a rate-limit signal: a back-off of
    [backoff_base ** attempt] plus the jitter after every attempt but
    the last. *)
Fixpoint failing_run (cfg : BaseAdapter.HttpConfig) (env : BaseAdapter.Remote)
    (attempts : list nat) : list BaseAdapter.Event :=
  match attempts with
  | [] => []
  | a :: rest =>
      match rest with
      | [] => [BaseAdapter.EvGet a]
      | _ :: _ =>
          BaseAdapter.EvGet a
            :: BaseAdapter.EvBackoff
                 (Qpower (BaseAdapter.backoff_base cfg) (Z.of_nat a)
                  + BaseAdapter.jitter env a)%Q
            :: failing_run cfg env rest
      end
  end.

(** An attempt that ends in the [except] branch: the request raises, or
    its answer is a 4xx or 5xx other than 429. *)
Definition attempt_fails (env : BaseAdapter.Remote) (a : nat) : Prop :=
  match BaseAdapter.get env a with
  | None => True
  | Some r =>
      BaseAdapter.status_code r <> 429 /\ BaseAdapter.is_http_error r = true
  end.

(** The cards of a deck in one zone. *)
Definition zone_cards (zone : pystr) (d : Database.NormalizedDeck)
    : list Database.CardEntry :=
  List.filter (fun c => bool_decide (Database.ce_zone c = Some zone))
    (Database.cards d).

End Scenario.

(* ===================================================================== *)
(** * Properties *)
(* ===================================================================== *)

(** ** Card-name resolution (src/normalization/scryfall.py) *)

Section ScryfallFacts.
Import PyStr Scryfall Scenario.

(** A normalized name is empty or starts with an apostrophe: the
    replacement of the empty string puts one before every code point. *)
Lemma normalize_nonempty name :
  name <> [] ->
  exists rest, _normalize_name name = 39%N :: rest.
Proof.
  destruct name as [|c name]; [done|]. intros _.
  unfold _normalize_name.
  set (s := replace [233%N] _ _). clearbody s.
  eexists. reflexivity.
Qed.

Lemma basic_lands_keys k v :
  basic_lands !! k = Some v ->
  k ∈ [str "plains"; str "island"; str "swamp"; str "mountain"; str "forest"].
Proof.
  intros H. unfold basic_lands in H.
  apply elem_of_list_to_map_2 in H.
  repeat (apply elem_of_cons in H as [H|H];
          [injection H as -> _; set_solver|]).
  by apply elem_of_nil in H.
Qed.

(** No normalized name is a key of the basic-land table. *)
Lemma basic_lands_unreachable name :
  basic_lands !! _normalize_name name = None.
Proof.
  destruct (basic_lands !! _normalize_name name) as [v|] eqn:E; [|done].
  apply basic_lands_keys in E.
  destruct name as [|c name].
  - vm_compute in E. repeat (apply elem_of_cons in E as [E|E]; [done|]).
    by apply elem_of_nil in E.
  - destruct (normalize_nonempty (c :: name)) as [rest Hr]; [done|].
    rewrite Hr in E.
    repeat (apply elem_of_cons in E as [E|E]; [vm_compute in E; done|]).
    by apply elem_of_nil in E.
Qed.

Lemma lookup_name_hit st name oid st1 :
  lookup_name st name = (Some oid, st1) ->
  oracle_cache st1 !! _normalize_name name = Some oid.
Proof.
  unfold lookup_name.
  destruct (oracle_cache st !! _normalize_name name) as [o|] eqn:E.
  { intros [= <- <-]. done. }
  destruct (first_hit _ _) as [o|].
  { intros [= <- <-]. simpl. apply lookup_insert_eq. }
  destruct (basic_lands !! _) as [o|]; [|done].
  intros [= <- <-]. simpl. apply lookup_insert_eq.
Qed.

Lemma lookup_name_direct st name oid :
  oracle_cache st !! _normalize_name name = Some oid ->
  lookup_name st name = (Some oid, st).
Proof. intros H. unfold lookup_name. by rewrite H. Qed.

Lemma resolve_hit now st w name oid st1 w1 :
  resolve_card_name now st w name = (Some oid, st1, w1) ->
  oracle_cache st1 !! _normalize_name name = Some oid.
Proof.
  unfold resolve_card_name.
  destruct (decide (oracle_cache st = ∅)).
  - destruct (build_name_resolver now st w) as [[ok st'] w'].
    destruct ok; [|done].
    destruct (lookup_name st' name) as [r st''] eqn:E.
    intros [= -> <- <-]. by eapply lookup_name_hit.
  - destruct (lookup_name st name) as [r st''] eqn:E.
    intros [= -> <- <-]. by eapply lookup_name_hit.
Qed.

Lemma resolve_direct now st w name oid :
  oracle_cache st !! _normalize_name name = Some oid ->
  resolve_card_name now st w name = (Some oid, st, w).
Proof.
  intros H. unfold resolve_card_name.
  destruct (decide (oracle_cache st = ∅)) as [He|_].
  { rewrite He in H. by rewrite lookup_empty in H. }
  by rewrite (lookup_name_direct _ _ _ H).
Qed.

(** Resolution never removes or changes an entry of the cache it
    looks into. *)
Lemma lookup_name_keeps st name r st1 key oid :
  lookup_name st name = (r, st1) ->
  oracle_cache st !! key = Some oid ->
  oracle_cache st1 !! key = Some oid.
Proof.
  unfold lookup_name. intros H Hk.
  destruct (oracle_cache st !! _normalize_name name) as [o|] eqn:E.
  { by injection H as <- <-. }
  assert (_normalize_name name <> key) by congruence.
  destruct (first_hit _ _) as [o|].
  { injection H as <- <-. simpl. by rewrite lookup_insert_ne. }
  destruct (basic_lands !! _) as [o|].
  { injection H as <- <-. simpl. by rewrite lookup_insert_ne. }
  by injection H as <- <-.
Qed.

Lemma resolve_keeps now st w name r st1 w1 key oid :
  resolve_card_name now st w name = (r, st1, w1) ->
  oracle_cache st !! key = Some oid ->
  oracle_cache st1 !! key = Some oid.
Proof.
  unfold resolve_card_name. intros H Hk.
  destruct (decide (oracle_cache st = ∅)) as [He|_].
  { rewrite He in Hk. by rewrite lookup_empty in Hk. }
  destruct (lookup_name st name) as [r' st'] eqn:E.
  injection H as <- <- <-. by eapply lookup_name_keeps.
Qed.

Lemma resolve_all_keeps now names : forall st w key oid,
  oracle_cache st !! key = Some oid ->
  oracle_cache (resolve_all now st w names).1 !! key = Some oid.
Proof.
  induction names as [|n rest IH]; intros st w key oid Hk; [done|].
  simpl. destruct (resolve_card_name now st w n) as [[r st1] w1] eqn:E.
  apply IH. by eapply resolve_keeps.
Qed.

(** Names with one normalized form resolve alike, state included. *)
Lemma resolve_same_key now st w n1 n2 :
  _normalize_name n1 = _normalize_name n2 ->
  resolve_card_name now st w n1 = resolve_card_name now st w n2.
Proof.
  intros H. unfold resolve_card_name, lookup_name. by rewrite H.
Qed.

(** A resolution that ends in the basic-land branch, or in none, finds
    nothing: with the cache in place, the result is a cache entry. *)
Lemma lookup_name_from_cache st name oid st1 :
  lookup_name st name = (Some oid, st1) ->
  oracle_cache st !! _normalize_name name = Some oid \/
  first_hit (oracle_cache st) (variations (_normalize_name name)) = Some oid.
Proof.
  unfold lookup_name.
  destruct (oracle_cache st !! _normalize_name name) as [o|] eqn:E.
  { intros [= <- <-]. by left. }
  destruct (first_hit _ _) as [o|].
  { intros [= <- <-]. by right. }
  by rewrite basic_lands_unreachable.
Qed.

(** C7. Once a name has resolved (directly, through a variation or
    through the built-in table), its normalized key is an entry of the
    cache with that id; resolving the same name again returns the same
    id, never none, leaves the state alone, and this stays so after any
    other names have been resolved in between. *)
Theorem C7_resolved_name_stays_resolved now now' st w w' name oid st1 w1 :
  resolve_card_name now st w name = (Some oid, st1, w1) ->
  oracle_cache st1 !! _normalize_name name = Some oid /\
  resolve_card_name now' st1 w' name = (Some oid, st1, w') /\
  (forall others,
     let '(st2, w2) := resolve_all now' st1 w' others in
     (resolve_card_name now' st2 w2 name).1.1 = Some oid).
Proof.
  intros H. apply resolve_hit in H. split; [done|]. split.
  - by apply resolve_direct.
  - intros others.
    pose proof (resolve_all_keeps now' others st1 w' _ _ H) as Hk.
    destruct (resolve_all now' st1 w' others) as [st2 w2]. simpl in Hk.
    by rewrite (resolve_direct now' st2 w2 name oid Hk).
Qed.

(** The id found through a variation (the index holds a card named with
    one apostrophe, the name asked for is two commas) is memoized under
    the normalized key of the name asked for. *)
Lemma C7_witness :
  let w := one_card_world (str "'") (str "id-1") in
  let name := str ",," in
  let st1 := (resolve_card_name 0 init w name).1.2 in
  oracle_cache (build_name_resolver 0 init w).1.2 !! _normalize_name name = None /\
  oracle_cache st1 !! _normalize_name name = Some (str "id-1") /\
  resolve_card_name 1 st1 offline_world name
  = (Some (str "id-1"), st1, offline_world).
Proof.
  intros w name st1. split; [by vm_compute|].
  destruct (C7_resolved_name_stays_resolved 0 1 init w offline_world name
              (str "id-1") st1 w) as (H1 & H2 & _).
  - by vm_compute.
  - split; [exact H1 | exact H2].
Defined.

(** C3, as stated, fails: with the card entered under its accented name
    the two unaccented spellings find nothing, and with the card entered
    under the unaccented name the accented spelling finds nothing. *)
Lemma C3_counterexample :
  ~ name_variation_equivalence lim_dul_accented (str "lim-dul-id") /\
  ~ name_variation_equivalence lim_dul_plain (str "lim-dul-id").
Proof.
  split; intros H.
  - assert (Hin : lim_dul_lower ∈
                  [lim_dul_accented; lim_dul_lower; lim_dul_plain])
      by set_solver.
    apply H in Hin. by vm_compute in Hin.
  - assert (Hin : lim_dul_accented ∈
                  [lim_dul_accented; lim_dul_lower; lim_dul_plain])
      by set_solver.
    apply H in Hin. by vm_compute in Hin.
Qed.

(** C3, amended. The two spellings that differ in letter case only
    resolve alike in every state, and to the id of the one reference
    entry when it is entered under the unaccented name; the accented
    spelling has another normalized key (the u with a circumflex is not
    among the rewritten characters) and resolves only against an entry
    entered under the accented name, which the other two then miss. *)
Theorem C3_case_variants_resolve_alike :
  (forall now st w,
     resolve_card_name now st w lim_dul_lower
     = resolve_card_name now st w lim_dul_plain) /\
  _normalize_name lim_dul_accented <> _normalize_name lim_dul_plain /\
  (forall oid,
     let w := one_card_world lim_dul_plain oid in
     (resolve_card_name 0 init w lim_dul_lower).1.1 = Some oid /\
     (resolve_card_name 0 init w lim_dul_plain).1.1 = Some oid /\
     (resolve_card_name 0 init w lim_dul_accented).1.1 = None) /\
  (forall oid,
     let w := one_card_world lim_dul_accented oid in
     (resolve_card_name 0 init w lim_dul_accented).1.1 = Some oid /\
     (resolve_card_name 0 init w lim_dul_lower).1.1 = None /\
     (resolve_card_name 0 init w lim_dul_plain).1.1 = None).
Proof.
  split; [|split; [|split]].
  - intros. by apply resolve_same_key.
  - by vm_compute.
  - intros oid w. subst w. repeat split; by vm_compute.
  - intros oid w. subst w. repeat split; by vm_compute.
Qed.

(** C4. The code does not do what the claim says: the normalized form of
    a name starts with an apostrophe, so it is never a key of the
    built-in table, and "Forest" resolves to none with an index built
    from an empty file, with an index that holds another card only, and
    with no index and no way to build one. *)
Theorem C4_basic_land_table_never_hit :
  _normalize_name (str "Forest") = str "'f'o'r'e's't'" /\
  (forall name, basic_lands !! _normalize_name name = None) /\
  resolve_card_name 0 init empty_bulk_world (str "Forest")
  = (None, {| oracle_cache := ∅; last_updated := Some 0 |}, empty_bulk_world) /\
  (resolve_card_name 0 init (one_card_world (str "Sol Ring") (str "sol-ring-id"))
     (str "Forest")).1.1 = None /\
  (resolve_card_name 0 init offline_world (str "Forest")).1.1 = None /\
  ~ basic_land_resolution (str "Forest")
      (str "b34bb2dc-c1af-4d77-b0b3-a0fb342a5fc6").
Proof.
  split; [by vm_compute|]. split; [apply basic_lands_unreachable|].
  split; [by vm_compute|]. split; [by vm_compute|]. split; [by vm_compute|].
  intros H.
  assert (Hmiss : oracle_cache init !! _normalize_name (str "Forest") = None)
    by done.
  apply (H 0 init empty_bulk_world) in Hmiss. by vm_compute in Hmiss.
Qed.

End ScryfallFacts.

(** ** The normalization sweep (src/normalization/normalizer.py) *)

Section NormalizerFacts.
Import PyStr Scryfall Database Normalizer Scenario.







End NormalizerFacts.

(** ** The export job (src/orchestration/ingestion_job.py) *)

Section IngestionJobFacts.
Import PyStr Database IngestionJob Scenario.

Lemma get_source_id_logs name db :
  ingestion_logs (get_source_id name db).2 = ingestion_logs db.
Proof. unfold get_source_id. by destruct (List.find _ _). Qed.

Lemma upsert_deck_logs now source sdid d db :
  ingestion_logs (upsert_deck now source sdid d db).2 = ingestion_logs db.
Proof.
  unfold upsert_deck.
  pose proof (get_source_id_logs source db) as H.
  destruct (get_source_id source db) as [sid db1]. simpl in H.
  by destruct (List.find _ _).
Qed.

(** Persisting a deck writes no job record. *)
Lemma persist_deck_logs now source d db :
  ingestion_logs (persist_deck now source d db) = ingestion_logs db.
Proof.
  unfold persist_deck.
  pose proof (upsert_deck_logs now source (source_deck_id d) d db) as H.
  destruct (upsert_deck _ _ _ _ _) as [id db1]. simpl in H.
  by destruct (commanders d).
Qed.





(** The record of an export that reaches its loop: one record, whose
    status is success exactly when it counts no error; the dictionary
    returned says success in both cases. *)
Lemma export_record now duration job adapter id ids max_decks :
  moxfield job = Some adapter ->
  let r := run_moxfield_export now duration (Some (id :: ids)) max_decks job in
  exists run,
    ingestion_logs (db r.2) = ingestion_logs (db job) ++ [run] /\
    (status run = success <-> errors_count run = 0) /\
    (status run = partial <-> errors_count run <> 0) /\
    result_status r.1 = success.
Proof.
  intros Ha. unfold run_moxfield_export. rewrite Ha.
  destruct (export_loop _ _ _ _ _) as [t db'] eqn:E.
  assert (Hlogs : ingestion_logs db' = ingestion_logs (db job)).
  { clear Ha. revert E. generalize 0%nat.
    generalize ({| total_decks := 0; total_cards := 0; errors := 0 |}).
    generalize (db job). generalize (slice_to max_decks (id :: ids)).
    intros l. induction l as [|x l IH]; intros d0 t0 i E.
    { by injection E as <- <-. }
    cbn [export_loop] in E.
    destruct (fetch_deck adapter i x).
    - by apply IH in E.
    - by apply IH in E.
    - apply IH in E. by rewrite persist_deck_logs in E. }
  cbv zeta. eexists.
  cbn [db fst snd ingestion_logs log_ingestion set_ingestion_logs
       result_status].
  split; [by rewrite Hlogs|].
  cbn [status errors_count].
  destruct (errors t =? 0) eqn:E0; repeat split; try done; lia.
Qed.



End IngestionJobFacts.

(** ** Persistence of a deck (src/db/database.py and the job's calls) *)

Section DatabaseFacts.
Import PyStr Database IngestionJob Scenario.

Lemma find_app_miss {A} (p : A -> bool) l1 l2 :
  List.find p l1 = None -> List.find p (l1 ++ l2) = List.find p l2.
Proof.
  induction l1 as [|x l1 IH]; [done|]. simpl.
  destruct (p x); [done|]. apply IH.
Qed.

Lemma find_fmap_stable {A} (p : A -> bool) (f : A -> A) l :
  (forall x, p (f x) = p x) ->
  List.find p (f <$> l) = f <$> List.find p l.
Proof.
  intros Hp. induction l as [|x l IH]; [done|]. simpl.
  rewrite Hp. by destruct (p x).
Qed.

Lemma filter_fmap_stable {A} (p : A -> bool) (f : A -> A) l :
  (forall x, p (f x) = p x) ->
  List.filter p (f <$> l) = f <$> List.filter p l.
Proof.
  intros Hp. induction l as [|x l IH]; [done|]. simpl.
  rewrite Hp. destruct (p x); simpl; [f_equal|]; exact IH.
Qed.

Lemma filter_find_miss {A} (p : A -> bool) l :
  List.find p l = None -> List.filter p l = [].
Proof.
  induction l as [|x l IH]; [done|]. simpl.
  destruct (p x); [done|]. apply IH.
Qed.

Lemma filter_negb_filter {A} (p : A -> bool) l :
  List.filter p (List.filter (fun x => negb (p x)) l) = [].
Proof.
  induction l as [|x l IH]; [done|]. simpl.
  destruct (p x) eqn:E; simpl; [done|]. by rewrite E.
Qed.

Lemma filter_all {A} (p : A -> bool) l :
  (forall x, x ∈ l -> p x = true) -> List.filter p l = l.
Proof.
  induction l as [|x l IH]; intros H; [done|]. simpl.
  rewrite H; [|set_solver]. f_equal. apply IH. intros y Hy.
  apply H. set_solver.
Qed.

(** [get_source_id] touches the table of sources only, and asking again
    gives the same id without a new row. *)
Lemma get_source_id_spec name db :
  let r := get_source_id name db in
  decks r.2 = decks db /\
  deck_cards r.2 = deck_cards db /\
  deck_commanders r.2 = deck_commanders db /\
  exists row, List.find (fun x => bool_decide (x.2 = name)) (sources r.2)
              = Some row /\ row.1 = r.1.
Proof.
  unfold get_source_id.
  destruct (List.find _ (sources db)) as [row|] eqn:E;
    cbn [fst snd set_sources decks deck_cards deck_commanders sources].
  - repeat split. by exists row.
  - repeat split. exists (next_id (fst <$> sources db), name).
    split; [|done].
    rewrite find_app_miss; [|done]. cbn [List.find snd].
    by rewrite bool_decide_true.
Qed.

Lemma get_source_id_known name db row :
  List.find (fun x => bool_decide (x.2 = name)) (sources db) = Some row ->
  get_source_id name db = (row.1, db).
Proof. intros H. unfold get_source_id. by rewrite H. Qed.

Lemma refresh_keeps_key now d sid sdid id r :
  deck_matches sid sdid
    (if bool_decide (deck_id r = id) then refresh_deck now d r else r)
  = deck_matches sid sdid r.
Proof. by destruct (bool_decide _). Qed.

(** What [upsert_deck] leaves behind: the card and commander tables as
    they were, the source known, and the row of the key found under the
    id returned; the number of rows of the key is what it was, or one
    when there was none. *)
Lemma upsert_deck_spec now source sdid d db :
  let r := upsert_deck now source sdid d db in
  deck_cards r.2 = deck_cards db /\
  deck_commanders r.2 = deck_commanders db /\
  exists srow row,
    List.find (fun x => bool_decide (x.2 = source)) (sources r.2) = Some srow /\
    List.find (deck_matches srow.1 sdid) (decks r.2) = Some row /\
    deck_id row = r.1 /\
    length (deck_rows srow.1 sdid r.2)
    = Nat.max 1 (length (deck_rows srow.1 sdid db)).
Proof.
  unfold upsert_deck.
  destruct (get_source_id_spec source db) as (Hd & Hc & Hm & srow & Hs & Hid).
  destruct (get_source_id source db) as [sid db1]. cbn [fst snd] in *.
  subst sid. unfold deck_rows. rewrite <- Hd.
  destruct (List.find (deck_matches srow.1 sdid) (decks db1)) as [row|] eqn:E;
    cbn [fst snd deck_cards deck_commanders sources decks set_decks].
  - repeat split; [done|done|]. exists srow.
    eexists. split; [done|]. split; [|split].
    + rewrite find_fmap_stable; [|intros; apply refresh_keeps_key].
      rewrite E. reflexivity.
    + cbn. by destruct (bool_decide _).
    + rewrite filter_fmap_stable; [|intros; apply refresh_keeps_key].
      rewrite length_fmap.
      assert (row ∈ List.filter (deck_matches srow.1 sdid) (decks db1)).
      { apply List.find_some in E as [E1 E2].
        apply list_elem_of_In, List.filter_In. split; [|done]. done. }
      destruct (List.filter _ _); [set_solver|]. simpl. lia.
  - repeat split; [done|done|]. exists srow.
    eexists. split; [done|]. split; [|split].
    + rewrite find_app_miss; [|done]. cbn.
      unfold deck_matches. cbn. by rewrite !bool_decide_true.
    + done.
    + rewrite List.filter_app, (filter_find_miss _ _ E). cbn.
      unfold deck_matches. cbn. by rewrite !bool_decide_true.
Qed.

(** Upserting a key that is there returns the id of its row and adds no
    row. *)
Lemma upsert_deck_again now source sdid d db srow row :
  List.find (fun x => bool_decide (x.2 = source)) (sources db) = Some srow ->
  List.find (deck_matches srow.1 sdid) (decks db) = Some row ->
  let r := upsert_deck now source sdid d db in
  r.1 = deck_id row /\
  sources r.2 = sources db /\
  length (decks r.2) = length (decks db) /\
  length (deck_rows srow.1 sdid r.2) = length (deck_rows srow.1 sdid db).
Proof.
  intros Hs Hr. unfold upsert_deck.
  rewrite (get_source_id_known _ _ _ Hs), Hr. cbn.
  repeat split; [by rewrite length_fmap|].
  unfold deck_rows. cbn.
  rewrite filter_fmap_stable; [|intros; apply refresh_keeps_key].
  by rewrite length_fmap.
Qed.

Lemma insert_deck_cards_spec id cs db :
  let db' := insert_deck_cards id cs true db in
  card_rows id db' = card_row id <$> cs /\
  sources db' = sources db /\ decks db' = decks db /\
  deck_commanders db' = deck_commanders db.
Proof.
  unfold insert_deck_cards, card_rows. cbn. repeat split.
  rewrite List.filter_app.
  rewrite (filter_negb_filter (fun r => bool_decide (dc_deck_id r = id))).
  cbn. apply filter_all. intros x (c & -> & _)%list_elem_of_fmap.
  cbn. by rewrite bool_decide_true.
Qed.

Lemma insert_deck_commanders_spec id cs db :
  let db' := insert_deck_commanders id cs db in
  commander_rows id db' = commander_row id <$> cs /\
  sources db' = sources db /\ decks db' = decks db /\
  deck_cards db' = deck_cards db.
Proof.
  unfold insert_deck_commanders, commander_rows.
  pose proof (filter_negb_filter
                (fun r => bool_decide (dcm_deck_id r = id))
                (deck_commanders db)) as Hdel.
  destruct cs as [|c cs]; cbn; repeat split; [done|].
  rewrite List.filter_app, Hdel. cbn.
  rewrite bool_decide_true; [|done]. f_equal.
  apply filter_all. intros x (c' & -> & _)%list_elem_of_fmap.
  cbn. by rewrite bool_decide_true.
Qed.

(** One persistence of a deck by the job: the deck row is there under
    one id, the card rows of that id are the cards of the deck, and the
    commander rows of that id are the commanders of the deck when there
    are some, and what they were when there are none. *)
Lemma persist_deck_spec now source d db :
  let db' := persist_deck now source d db in
  exists srow row,
    List.find (fun x => bool_decide (x.2 = source)) (sources db') = Some srow /\
    List.find (deck_matches srow.1 (source_deck_id d)) (decks db') = Some row /\
    deck_id row = (upsert_deck now source (source_deck_id d) d db).1 /\
    length (deck_rows srow.1 (source_deck_id d) db')
    = Nat.max 1 (length (deck_rows srow.1 (source_deck_id d) db)) /\
    card_rows (deck_id row) db' = card_row (deck_id row) <$> cards d /\
    (commanders d <> [] ->
     commander_rows (deck_id row) db'
     = commander_row (deck_id row) <$> commanders d) /\
    (commanders d = [] ->
     commander_rows (deck_id row) db' = commander_rows (deck_id row) db).
Proof.
  unfold persist_deck.
  destruct (upsert_deck_spec now source (source_deck_id d) d db)
    as (Hc & Hm & srow & row & Hs & Hr & Hid & Hlen).
  destruct (upsert_deck now source (source_deck_id d) d db) as [id db1].
  cbn [fst snd] in *. subst id.
  destruct (insert_deck_cards_spec (deck_id row) (cards d) db1)
    as (Kc & Ks & Kd & Km).
  set (db2 := insert_deck_cards (deck_id row) (cards d) true db1) in *.
  destruct (insert_deck_commanders_spec (deck_id row) (commanders d) db2)
    as (Lm & Ls & Ld & Lc).
  unfold deck_rows, card_rows, commander_rows in *.
  destruct (commanders d) as [|c cs] eqn:Ecmd; cbv zeta.
  - exists srow, row. rewrite Ks, Kd, Km, Hm.
    repeat split; try done.
  - exists srow, row. rewrite Ls, Ld, Lc, Ks, Kd.
    repeat split; try done.
Qed.

(** Two persistences of one key by the job, the second with another
    deck value: the second finds the row of the first (same id, no new
    deck row), the card rows are the cards of the second, and the
    commander rows are the commanders of the second when it has some;
    when it has none they are the rows the first persistence left. *)
Lemma persist_deck_twice now1 now2 source d1 d2 db :
  source_deck_id d1 = source_deck_id d2 ->
  let db1 := persist_deck now1 source d1 db in
  let db2 := persist_deck now2 source d2 db1 in
  let id := (upsert_deck now1 source (source_deck_id d1) d1 db).1 in
  (upsert_deck now2 source (source_deck_id d2) d2 db1).1 = id /\
  length (decks db2) = length (decks db1) /\
  card_rows id db2 = card_row id <$> cards d2 /\
  (commanders d2 <> [] ->
   commander_rows id db2 = commander_row id <$> commanders d2) /\
  (commanders d2 = [] -> commander_rows id db2 = commander_rows id db1).
Proof.
  intros Hkey db1 db2 id.
  destruct (persist_deck_spec now1 source d1 db)
    as (srow & row & Hs & Hr & Hid & _). fold db1 in Hs, Hr. fold id in Hid.
  rewrite Hkey in Hr.
  destruct (upsert_deck_again now2 source (source_deck_id d2) d2 db1
              srow row Hs Hr) as (Hsame & Hsrc & Hlen & _).
  destruct (persist_deck_spec now2 source d2 db1)
    as (srow' & row' & Hs' & Hr' & Hid' & _ & Hcards & Hc1 & Hc2).
  fold db2 in Hs', Hr', Hcards, Hc1, Hc2.
  rewrite Hsame, Hid in Hid'. rewrite Hid' in Hcards, Hc1, Hc2.
  rewrite Hsame, Hid. repeat split; try done.
  subst db2. unfold persist_deck.
  destruct (upsert_deck now2 source (source_deck_id d2) d2 db1)
    as [id2 db1'] eqn:E. cbn [snd] in Hlen. rewrite <- Hlen.
  destruct (insert_deck_cards_spec id2 (cards d2) db1') as (_ & _ & Kd & _).
  destruct (insert_deck_commanders_spec id2 (commanders d2)
              (insert_deck_cards id2 (cards d2) true db1'))
    as (_ & _ & Ld & _).
  destruct (commanders d2); [by rewrite Kd|by rewrite Ld, Kd].
Qed.

(** C8. The code does not do what the claim says for the commander rows.
    A deck is persisted with the commander Atraxa and persisted again,
    under the same key, with other cards and no commander: there is one
    deck row and the card rows are those of the second list, but the
    commander row of the first persistence is still there, where the
    most recent list is empty.  [insert_deck_commanders] itself, called
    with the empty list, removes the row. *)
Theorem C8_commander_rows_survive_empty_list :
  let d1 := sample_deck (str "deck-1") [str "Sol Ring"] [str "Atraxa"] in
  let d2 := sample_deck (str "deck-1") [str "Island"] [] in
  let db1 := persist_deck 1 (str "moxfield") d1 empty_db in
  let db2 := persist_deck 2 (str "moxfield") d2 db1 in
  length (decks db2) = 1%nat /\
  deck_id <$> decks db2 = [1] /\
  card_rows 1 db2 = card_row 1 <$> cards d2 /\
  commanders d2 = [] /\
  commander_rows 1 db2 = [commander_row 1 (commander (str "Atraxa"))] /\
  commander_rows 1 db2 <> commander_row 1 <$> commanders d2 /\
  commander_rows 1 (insert_deck_commanders 1 (commanders d2) db2) = [].
Proof. repeat split; by vm_compute. Qed.

End DatabaseFacts.

(** ** The request engine (src/adapters/base_adapter.py) *)

Section BaseAdapterFacts.
Import PyStr BaseAdapter Scenario.




Lemma gets_cons a e evs :
  (forall a', e <> EvGet a') ->
  gets (EvGet a :: e :: evs) = a :: gets evs.
Proof.
  intros He. unfold gets. cbn. destruct e; try done. by destruct (He attempt).
Qed.




End BaseAdapterFacts.

(** ** Paginated discovery (src/adapters/archidekt.py) *)

Section ArchidektFacts.
Import PyStr Archidekt Scenario.

Lemma uniform_bounds (p r : Q) :
  (0 <= p)%Q -> (0 <= r)%Q -> (r <= 1)%Q ->
  (p / 2 <= uniform (p / 2) p r)%Q /\ (uniform (p / 2) p r <= p)%Q.
Proof.
  intros Hp H0 H1. unfold uniform.
  set (h := (p / 2)%Q).
  assert (Hph : (p == h + h)%Q) by (subst h; field).
  assert (Hh : (0 <= h)%Q) by lra.
  assert (Hm : (0 <= h * r)%Q) by (apply Qmult_le_0_compat; lra).
  assert (Hm1 : (0 <= h * (1 - r))%Q) by (apply Qmult_le_0_compat; lra).
  assert (E : ((p - h) * r == h * r)%Q) by (rewrite Hph; ring).
  assert (E1 : (h * (1 - r) == h - h * r)%Q) by ring.
  rewrite E. rewrite E1 in Hm1. split; lra.
Qed.

Lemma delay_after_bounds env pol p :
  (0 <= pol)%Q ->
  (0 <= random env p)%Q -> (random env p <= 1)%Q ->
  (pol / 2 <= delay_after env pol p)%Q /\ (delay_after env pol p <= pol)%Q /\
  Qle_bool 0 (delay_after env pol p) = true.
Proof.
  intros Hp H0 H1. unfold delay_after.
  destruct (uniform_bounds pol (random env p) Hp H0 H1) as [Ha Hb].
  split; [done|]. split; [done|]. apply Qle_bool_iff.
  assert (Hh : (0 <= pol / 2)%Q).
  { assert (Hph : (pol == pol / 2 + pol / 2)%Q) by field. lra. }
  lra.
Qed.

Lemma fetched_pages_schedule delay pages :
  fetched_pages (schedule delay pages) = pages.
Proof.
  induction pages as [|p rest IH]; [done|].
  cbn [schedule]. destruct rest as [|q rest]; [done|].
  change (fetched_pages (EvFetch p :: EvSleep (delay p)
                           :: schedule delay (q :: rest)))
    with (p :: fetched_pages (schedule delay (q :: rest))).
  by rewrite IH.
Qed.

Lemma schedule_sleeps delay pages d :
  EvSleep d ∈ schedule delay pages -> exists p, p ∈ pages /\ d = delay p.
Proof.
  induction pages as [|p rest IH]; intros H.
  { by apply elem_of_nil in H. }
  cbn [schedule] in H. destruct rest as [|q rest].
  { apply list_elem_of_singleton in H. done. }
  apply elem_of_cons in H as [H|H]; [done|].
  apply elem_of_cons in H as [H|H].
  - injection H as ->. exists p. split; [set_solver|done].
  - destruct (IH H) as (p' & Hp' & ->). exists p'. split; [set_solver|done].
Qed.

(** The loop from a state [st] on: it fetches [n] pages in a row from
    [page st], sleeps between one fetch and the next only, collects what
    the pages yield, and ends at [max_pages], at the first page that
    yields nothing, or at a delay that cannot be slept. *)
Lemma paging_loop_spec env max_pages pol fuel : forall st,
  max_pages - page st + 1 <= Z.of_nat fuel ->
  exists n st',
    paging_loop fuel env max_pages pol st = Some st' /\
    0 <= n <= Z.max 0 (max_pages - page st + 1) /\
    (page st <= max_pages -> 1 <= n) /\
    events st'
    = events st ++ schedule (delay_after env pol) (seqZ (page st) n) /\
    all_deck_ids st'
    = all_deck_ids st
      ++ concat (discover_deck_ids_by_commander env <$> seqZ (page st) n) /\
    (forall p, page st <= p < page st + n - 1 ->
               discover_deck_ids_by_commander env p <> []) /\
    (n = Z.max 0 (max_pages - page st + 1) \/
     (1 <= n /\
      discover_deck_ids_by_commander env (page st + n - 1) = []) \/
     (1 <= n /\
      Qle_bool 0 (delay_after env pol (page st + n - 1)) = false)).
Proof.
  induction fuel as [|fuel IH]; intros st Hfuel.
  - cbn [paging_loop]. destruct (page st <=? max_pages) eqn:E; [lia|].
    exists 0, st. cbn [negb]. rewrite !app_nil_r.
    repeat split; try done; try lia; try (left; lia).
  - cbn [paging_loop]. destruct (page st <=? max_pages) eqn:E; cbn [negb].
    2:{ exists 0, st. rewrite !app_nil_r.
        repeat split; try done; try lia; try (left; lia). }
    assert (Hlast : page st + 1 - 1 = page st) by lia.
    destruct (discover_deck_ids_by_commander env (page st)) as [|x xs] eqn:Ep.
    { exists 1, {| page := page st; all_deck_ids := all_deck_ids st;
                   events := events st ++ [EvFetch (page st)] |}.
      cbn [page events all_deck_ids].
      change (seqZ (page st) 1) with [page st]. cbn. rewrite Ep, !app_nil_r.
      repeat split; try done; try lia.
      all: try (right; left; split; [lia|]; by rewrite Hlast). }
    destruct (page st >=? max_pages) eqn:Ege.
    { exists 1, {| page := page st;
                   all_deck_ids := all_deck_ids st ++ x :: xs;
                   events := events st ++ [EvFetch (page st)] |}.
      cbn [page events all_deck_ids].
      change (seqZ (page st) 1) with [page st]. cbn. rewrite Ep, !app_nil_r.
      repeat split; try done; try lia; try (left; lia). }
    destruct (page st <? max_pages) eqn:Elt; [|lia].
    fold (delay_after env pol (page st)).
    destruct (Qle_bool 0 (delay_after env pol (page st))) eqn:Edelay.
    2:{ exists 1, {| page := page st;
                     all_deck_ids := all_deck_ids st ++ x :: xs;
                     events := events st ++ [EvFetch (page st)] |}.
        cbn [page events all_deck_ids].
        change (seqZ (page st) 1) with [page st]. cbn.
        rewrite Ep, !app_nil_r.
        repeat split; try done; try lia.
        all: try (right; right; split; [lia|]; by rewrite Hlast). }
    set (st1 := {| page := page st + 1;
                   all_deck_ids := all_deck_ids st ++ x :: xs;
                   events := (events st ++ [EvFetch (page st)])
                             ++ [EvSleep (delay_after env pol (page st))] |}).
    destruct (IH st1) as (n & st' & Hrun & Hn & Hpos & Hev & Hids & Hne & Hend).
    { cbn. lia. }
    cbn [page events all_deck_ids st1] in *.
    exists (1 + n), st'. rewrite Hrun.
    assert (Hn1 : 1 <= n) by (apply Hpos; lia).
    assert (Hseq : seqZ (page st) (1 + n) = page st :: seqZ (page st + 1) n).
    { rewrite seqZ_cons; [|lia]. f_equal. f_equal; lia. }
    assert (Hsame : page st + (1 + n) - 1 = page st + 1 + n - 1) by lia.
    split; [done|]. split; [lia|]. split; [lia|].
    split; [|split; [|split]].
    + rewrite Hev, Hseq. cbn [schedule].
      destruct (seqZ (page st + 1) n) as [|q rest] eqn:Es.
      { apply (f_equal length) in Es. rewrite length_seqZ in Es.
        cbn in Es. lia. }
      by rewrite <- !app_assoc.
    + rewrite Hids, Hseq. cbn [fmap list_fmap concat]. rewrite Ep.
      by rewrite <- app_assoc.
    + intros p Hp. destruct (decide (p = page st)) as [->|Hneq].
      * by rewrite Ep.
      * apply Hne. lia.
    + rewrite Hsame.
      destruct Hend as [Hend|[[Hend1 Hend2]|[Hend1 Hend2]]].
      * left. lia.
      * right. left. split; [lia|done].
      * right. right. split; [lia|done].
Qed.

(** The search as a whole. *)
Lemma discover_spec env max_pages pol :
  exists ids evs n,
    discover_top_viewed_deck_ids_by_commander env max_pages pol
    = Some (ids, evs) /\
    0 <= n <= Z.max 0 max_pages /\
    evs = schedule (delay_after env pol) (seqZ 1 n) /\
    ids = list_set (concat (discover_deck_ids_by_commander env <$> seqZ 1 n)) /\
    (forall p, 1 <= p < n -> discover_deck_ids_by_commander env p <> []) /\
    (n = Z.max 0 max_pages \/
     (1 <= n /\ discover_deck_ids_by_commander env n = []) \/
     (1 <= n /\ Qle_bool 0 (delay_after env pol n) = false)).
Proof.
  unfold discover_top_viewed_deck_ids_by_commander.
  destruct (paging_loop_spec env max_pages pol (Z.to_nat max_pages)
              {| page := 1; all_deck_ids := []; events := [] |})
    as (n & st' & Hrun & Hn & _ & Hev & Hids & Hne & Hend).
  { cbn. lia. }
  cbn [page events all_deck_ids] in *. rewrite Hrun.
  exists (list_set (all_deck_ids st')), (events st'), n.
  split; [done|]. split; [lia|]. split; [done|]. split; [by rewrite Hids|].
  split.
  - intros p Hp. apply Hne. lia.
  - replace (1 + n - 1) with n in Hend by lia.
    destruct Hend as [Hend|[Hend|Hend]]; [left; lia|by right; left|by right; right].
Qed.

(** With delays that can be slept, the search ends at [max_pages] or at
    the first page that yields nothing. *)
Lemma discover_spec_valid env max_pages pol :
  (0 <= pol)%Q ->
  (forall p, (0 <= random env p)%Q /\ (random env p <= 1)%Q) ->
  exists ids evs n,
    discover_top_viewed_deck_ids_by_commander env max_pages pol
    = Some (ids, evs) /\
    0 <= n <= Z.max 0 max_pages /\
    evs = schedule (delay_after env pol) (seqZ 1 n) /\
    ids = list_set (concat (discover_deck_ids_by_commander env <$> seqZ 1 n)) /\
    (forall p, 1 <= p < n -> discover_deck_ids_by_commander env p <> []) /\
    (n = Z.max 0 max_pages \/
     (1 <= n /\ discover_deck_ids_by_commander env n = [])).
Proof.
  intros Hpol Hrnd.
  destruct (discover_spec env max_pages pol)
    as (ids & evs & n & Hrun & Hn & Hev & Hids & Hne & Hend).
  exists ids, evs, n. repeat split; try done; try lia.
  destruct Hend as [Hend|[Hend|[_ Hend]]]; [by left|by right|].
  destruct (Hrnd n) as [H0 H1].
  destruct (delay_after_bounds env pol n Hpol H0 H1) as (_ & _ & H).
  congruence.
Qed.

(** The search always ends, whatever the delays are. *)
Lemma discover_total env max_pages pol :
  is_Some (discover_top_viewed_deck_ids_by_commander env max_pages pol).
Proof.
  destruct (discover_spec env max_pages pol) as (ids & evs & n & -> & _).
  by eexists.
Qed.

(** C5. Every search returns. The pages it fetches are 1, 2, ..., n in
    order, n is at most max_pages, and every page before the n-th yields
    identifiers: nothing is fetched after a page that yields none, and
    the identifiers collected are returned as the result.  When the
    politeness delay is not negative, n is max_pages or the first page
    that yields no identifier. *)
Theorem C5_stops_at_first_empty_page env max_pages pol :
  exists ids evs n,
    discover_top_viewed_deck_ids_by_commander env max_pages pol
    = Some (ids, evs) /\
    fetched_pages evs = seqZ 1 n /\
    0 <= n <= Z.max 0 max_pages /\
    (forall p, 1 <= p < n -> discover_deck_ids_by_commander env p <> []) /\
    ids = list_set (concat (discover_deck_ids_by_commander env <$> seqZ 1 n)) /\
    ((0 <= pol)%Q ->
     (forall p, (0 <= random env p)%Q /\ (random env p <= 1)%Q) ->
     n = Z.max 0 max_pages \/
     (1 <= n /\ discover_deck_ids_by_commander env n = [])).
Proof.
  destruct (discover_spec env max_pages pol)
    as (ids & evs & n & Hrun & Hn & Hev & Hids & Hne & Hend).
  exists ids, evs, n. split; [done|]. split.
  { by rewrite Hev, fetched_pages_schedule. }
  split; [lia|]. split; [done|]. split; [done|].
  intros Hpol Hrnd.
  destruct Hend as [Hend|[Hend|[_ Hend]]]; [by left|by right|].
  destruct (Hrnd n) as [H0 H1].
  destruct (delay_after_bounds env pol n Hpol H0 H1) as (_ & _ & H).
  congruence.
Qed.

(** A search over three pages of which the second is empty, with room
    for five: pages 1 and 2 are fetched, page 3 is not, and the result
    is what page 1 yields. *)
Lemma C5_witness :
  let env := serving [ page_of_links [str "/decks/11/a"; str "/decks/12/b"];
                       page_of_links [];
                       page_of_links [str "/decks/13/c"] ]
               (fun _ => (1 # 2)%Q) in
  (fetched_pages <$> (snd <$> discover_top_viewed_deck_ids_by_commander env 5 5)
   = Some [1; 2]) /\
  exists ids evs n,
    discover_top_viewed_deck_ids_by_commander env 5 5 = Some (ids, evs) /\
    fetched_pages evs = seqZ 1 n /\
    0 <= n <= Z.max 0 5 /\
    (forall p, 1 <= p < n -> discover_deck_ids_by_commander env p <> []) /\
    ids = list_set (concat (discover_deck_ids_by_commander env <$> seqZ 1 n)) /\
    ((0 <= 5)%Q ->
     (forall p, (0 <= random env p)%Q /\ (random env p <= 1)%Q) ->
     n = Z.max 0 5 \/
     (1 <= n /\ discover_deck_ids_by_commander env n = [])).
Proof.
  intros env. split; [by vm_compute|].
  apply (C5_stops_at_first_empty_page env 5 5).
Defined.

(** C9. For a politeness delay that is not negative, the calls of a
    search are its page fetches with one sleep between each fetch and
    the next and none after the last fetch, whether the search ends at
    max_pages or at an empty page, and every sleep lasts between
    politeness_seconds/2 and politeness_seconds. *)
Theorem C9_delay_between_fetches_only env max_pages pol :
  (0 <= pol)%Q ->
  (forall p, (0 <= random env p)%Q /\ (random env p <= 1)%Q) ->
  exists ids evs n,
    discover_top_viewed_deck_ids_by_commander env max_pages pol
    = Some (ids, evs) /\
    fetched_pages evs = seqZ 1 n /\
    (n = Z.max 0 max_pages \/
     (1 <= n /\ discover_deck_ids_by_commander env n = [])) /\
    evs = schedule (delay_after env pol) (fetched_pages evs) /\
    (forall d, EvSleep d ∈ evs -> (pol / 2 <= d)%Q /\ (d <= pol)%Q).
Proof.
  intros Hpol Hrnd.
  destruct (discover_spec_valid env max_pages pol Hpol Hrnd)
    as (ids & evs & n & Hrun & Hn & Hev & Hids & Hne & Hend).
  assert (Hf : fetched_pages evs = seqZ 1 n)
    by (by rewrite Hev, fetched_pages_schedule).
  exists ids, evs, n. split; [done|]. split; [done|]. split; [done|]. split.
  - by rewrite Hf.
  - intros d Hd. rewrite Hev in Hd.
    apply schedule_sleeps in Hd as (p & _ & ->).
    destruct (Hrnd p) as [H0 H1].
    by destruct (delay_after_bounds env pol p Hpol H0 H1) as (Ha & Hb & _).
Qed.

(** Two pages with identifiers and room for two: one sleep, between the
    two fetches; with room for three the empty third page is fetched
    after a second sleep and nothing follows it. *)
Lemma C9_witness :
  let env := serving [ page_of_links [str "/decks/11/a"];
                       page_of_links [str "/decks/12/b"] ]
               (fun _ => (1 # 2)%Q) in
  snd <$> discover_top_viewed_deck_ids_by_commander env 2 4
  = Some [EvFetch 1; EvSleep (delay_after env 4 1); EvFetch 2] /\
  snd <$> discover_top_viewed_deck_ids_by_commander env 3 4
  = Some [EvFetch 1; EvSleep (delay_after env 4 1); EvFetch 2;
          EvSleep (delay_after env 4 2); EvFetch 3] /\
  exists ids evs n,
    discover_top_viewed_deck_ids_by_commander env 2 4 = Some (ids, evs) /\
    fetched_pages evs = seqZ 1 n /\
    (n = Z.max 0 2 \/
     (1 <= n /\ discover_deck_ids_by_commander env n = [])) /\
    evs = schedule (delay_after env 4) (fetched_pages evs) /\
    (forall d, EvSleep d ∈ evs -> (4 / 2 <= d)%Q /\ (d <= 4)%Q).
Proof.
  intros env. split; [by vm_compute|]. split; [by vm_compute|].
  apply (C9_delay_between_fetches_only env 2 4).
  - by vm_compute.
  - intros p. split; by vm_compute.
Defined.

Lemma elem_of_concat {A} (x : A) (ls : list (list A)) :
  x ∈ concat ls <-> exists l, x ∈ l /\ l ∈ ls.
Proof.
  induction ls as [|l ls IH]; cbn [concat].
  - split; [by intros H%elem_of_nil|]. intros (l & _ & H).
    by apply elem_of_nil in H.
  - rewrite elem_of_app, IH. split.
    + intros [H|(l' & H1 & H2)]; [exists l|exists l']; set_solver.
    + intros (l' & H1 & [->|H2]%elem_of_cons); [by left|right; by exists l'].
Qed.

Lemma elem_of_list_set xs x : x ∈ list_set xs <-> x ∈ xs.
Proof. unfold list_set. by rewrite elem_of_elements, elem_of_list_to_set. Qed.

Lemma extract_raw pg x :
  x ∈ _extract_deck_ids_from_html pg <-> x ∈ raw_ids pg.
Proof.
  unfold _extract_deck_ids_from_html, _extract_deck_ids_with_regex, raw_ids.
  destruct (hrefs pg); apply elem_of_list_set.
Qed.

Lemma extract_nonempty pg :
  raw_ids pg <> [] -> _extract_deck_ids_from_html pg <> [].
Proof.
  intros Hraw Hnil. destruct (raw_ids pg) as [|x xs] eqn:E; [done|].
  assert (Hx : x ∈ _extract_deck_ids_from_html pg).
  { apply extract_raw. rewrite E. set_solver. }
  rewrite Hnil in Hx. by apply elem_of_nil in Hx.
Qed.

Lemma discover_serving pages rnd p :
  1 <= p ->
  discover_deck_ids_by_commander (serving pages rnd) p
  = match pages !! Z.to_nat (p - 1) with
    | Some pg => _extract_deck_ids_from_html pg
    | None => []
    end.
Proof.
  intros Hp. unfold discover_deck_ids_by_commander, serving. cbn.
  by rewrite bool_decide_true.
Qed.

(** A search over pages that all carry identifiers, with room for all
    of them, returns the distinct identifiers of the pages. *)
Lemma discover_all_pages rnd max_pages pol pages :
  (0 <= pol)%Q ->
  (forall p, (0 <= rnd p)%Q /\ (rnd p <= 1)%Q) ->
  (forall pg, pg ∈ pages -> raw_ids pg <> []) ->
  Z.of_nat (length pages) <= max_pages ->
  exists evs,
    discover_top_viewed_deck_ids_by_commander (serving pages rnd) max_pages pol
    = Some (elements (list_to_set (concat (raw_ids <$> pages)) : gset pystr),
            evs).
Proof.
  intros Hpol Hrnd Hfull Hroom.
  destruct (discover_spec_valid (serving pages rnd) max_pages pol Hpol Hrnd)
    as (ids & evs & n & Hrun & Hn & _ & Hids & Hne & Hend).
  exists evs. rewrite Hrun, Hids. unfold list_set. do 3 f_equal.
  assert (Hreach : Z.of_nat (length pages) <= n).
  { destruct Hend as [->|[Hn1 Hnil]]; [lia|].
    destruct (decide (n <= Z.of_nat (length pages))) as [Hle|]; [|lia].
    rewrite discover_serving in Hnil; [|done].
    destruct (lookup_lt_is_Some_2 pages (Z.to_nat (n - 1))) as [pg Hpg]; [lia|].
    rewrite Hpg in Hnil. apply extract_nonempty in Hnil; [done|].
    apply Hfull. by eapply list_elem_of_lookup_2. }
  apply set_eq. intros x. rewrite !elem_of_list_to_set.
  rewrite !elem_of_concat. split.
  - intros (l & Hx & Hl). apply list_elem_of_fmap in Hl as (p & -> & Hp).
    apply elem_of_seqZ in Hp. rewrite discover_serving in Hx; [|lia].
    destruct (pages !! Z.to_nat (p - 1)) as [pg|] eqn:Epg.
    2:{ by apply elem_of_nil in Hx. }
    exists (raw_ids pg). split; [by apply extract_raw|].
    apply list_elem_of_fmap. exists pg. split; [done|].
    by eapply list_elem_of_lookup_2.
  - intros (l & Hx & Hl). apply list_elem_of_fmap in Hl as (pg & -> & Hpg).
    apply list_elem_of_lookup_1 in Hpg as [i Hi].
    pose proof (lookup_lt_Some _ _ _ Hi) as Hlt.
    exists (discover_deck_ids_by_commander (serving pages rnd)
              (Z.of_nat i + 1)).
    split.
    + rewrite discover_serving; [|lia].
      replace (Z.to_nat (Z.of_nat i + 1 - 1)) with i by lia.
      rewrite Hi. by apply extract_raw.
    + apply list_elem_of_fmap. exists (Z.of_nat i + 1). split; [done|].
      apply elem_of_seqZ. lia.
Qed.

(** C6. For pages that all carry identifiers, possibly the same ones
    and possibly several times on a page, and a search with room for all
    of them, the result has no duplicates, its size is the number of
    distinct identifiers of the pages, and the pages in another order
    give the same identifiers, as many of them. *)
Theorem C6_distinct_identifiers_in_any_page_order
    rnd max_pages pol pages1 pages2 :
  (0 <= pol)%Q ->
  (forall p, (0 <= rnd p)%Q /\ (rnd p <= 1)%Q) ->
  pages1 ≡ₚ pages2 ->
  (forall pg, pg ∈ pages1 -> raw_ids pg <> []) ->
  Z.of_nat (length pages1) <= max_pages ->
  exists ids1 evs1 ids2 evs2,
    discover_top_viewed_deck_ids_by_commander (serving pages1 rnd)
      max_pages pol = Some (ids1, evs1) /\
    discover_top_viewed_deck_ids_by_commander (serving pages2 rnd)
      max_pages pol = Some (ids2, evs2) /\
    NoDup ids1 /\
    length ids1
    = size (list_to_set (concat (raw_ids <$> pages1)) : gset pystr) /\
    (forall x, x ∈ ids1 <-> exists pg, pg ∈ pages1 /\ x ∈ raw_ids pg) /\
    ids1 ≡ₚ ids2 /\
    length ids2 = length ids1.
Proof.
  intros Hpol Hrnd Hperm Hfull Hroom.
  destruct (discover_all_pages rnd max_pages pol pages1 Hpol Hrnd Hfull Hroom)
    as [evs1 H1].
  destruct (discover_all_pages rnd max_pages pol pages2 Hpol Hrnd)
    as [evs2 H2].
  { intros pg Hpg. apply Hfull. by rewrite Hperm. }
  { by rewrite <- Hperm. }
  assert (Hsame : (list_to_set (concat (raw_ids <$> pages2)) : gset pystr)
                  = list_to_set (concat (raw_ids <$> pages1))).
  { apply set_eq. intros x. rewrite !elem_of_list_to_set.
    by rewrite Hperm. }
  rewrite Hsame in H2.
  eexists _, evs1, _, evs2. split; [exact H1|]. split; [exact H2|].
  split; [apply NoDup_elements|]. split; [done|]. split; [|done].
  intros x. rewrite elem_of_elements, elem_of_list_to_set, elem_of_concat.
  split.
  - intros (l & Hx & Hl). apply list_elem_of_fmap in Hl as (pg & -> & Hpg).
    by exists pg.
  - intros (pg & Hpg & Hx). exists (raw_ids pg). split; [done|].
    apply list_elem_of_fmap. by exists pg.
Qed.

(** Three pages that share identifiers, one of them with a repeated
    link, in two orders. *)
Lemma C6_witness :
  let a := page_of_links [str "/decks/11/a"; str "/decks/12/b";
                          str "/decks/11/a"] in
  let b := page_of_links [str "/decks/12/b"; str "/decks/13/c"] in
  let c := page_of_links [str "/decks/13/c"; str "/profile/7"] in
  size (list_to_set (concat (raw_ids <$> [a; b; c])) : gset pystr) = 3%nat /\
  exists ids1 evs1 ids2 evs2,
    discover_top_viewed_deck_ids_by_commander
      (serving [a; b; c] (fun _ => (1 # 2)%Q)) 5 5 = Some (ids1, evs1) /\
    discover_top_viewed_deck_ids_by_commander
      (serving [c; a; b] (fun _ => (1 # 2)%Q)) 5 5 = Some (ids2, evs2) /\
    NoDup ids1 /\
    length ids1
    = size (list_to_set (concat (raw_ids <$> [a; b; c])) : gset pystr) /\
    (forall x, x ∈ ids1 <-> exists pg, pg ∈ [a; b; c] /\ x ∈ raw_ids pg) /\
    ids1 ≡ₚ ids2 /\
    length ids2 = length ids1.
Proof.
  intros a b c. split; [by vm_compute|].
  apply (C6_distinct_identifiers_in_any_page_order
           (fun _ => (1 # 2)%Q) 5 5 [a; b; c] [c; a; b]).
  - by vm_compute.
  - intros p. split; by vm_compute.
  - change [c; a; b] with ([c] ++ [a; b]).
    change [a; b; c] with ([a; b] ++ [c]). apply Permutation_app_comm.
  - intros pg Hpg.
    repeat (apply elem_of_cons in Hpg as [->|Hpg]; [by vm_compute|]).
    by apply elem_of_nil in Hpg.
  - by vm_compute.
Defined.

End ArchidektFacts.

(** ** The tables, one operation at a time (src/db/database.py) *)

Section TableFacts.
Import PyStr Database Scenario.

(** X1. Upserting a key a second time returns the id of the first upsert and
    adds no row; ids, keys and formats of all rows are as they were, and
    the row of the key now carries the title, author, url and fetch time
    of the second deck.  The format column keeps what the first insert
    wrote. *)
Theorem upsert_deck_twice_one_row now1 now2 source sdid d1 d2 db :
  let r1 := upsert_deck now1 source sdid d1 db in
  let r2 := upsert_deck now2 source sdid d2 r1.2 in
  r2.1 = r1.1 /\
  deck_id <$> decks r2.2 = deck_id <$> decks r1.2 /\
  deck_key <$> decks r2.2 = deck_key <$> decks r1.2 /\
  deck_format <$> decks r2.2 = deck_format <$> decks r1.2 /\
  exists srow row1 row2,
    List.find (fun x => bool_decide (x.2 = source)) (sources r2.2)
    = Some srow /\
    List.find (deck_matches srow.1 sdid) (decks r1.2) = Some row1 /\
    List.find (deck_matches srow.1 sdid) (decks r2.2) = Some row2 /\
    deck_id row2 = r1.1 /\
    deck_title row2 = title d2 /\
    deck_author row2 = author d2 /\
    deck_url row2 = url d2 /\
    deck_fetched_at row2 = now2 /\
    deck_format row2 = deck_format row1.
Proof.
  intros r1 r2.
  destruct (upsert_deck_spec now1 source sdid d1 db)
    as (_ & _ & srow & row & Hs & Hr & Hid & _). fold r1 in Hs, Hr, Hid.
  subst r2. clearbody r1. unfold upsert_deck.
  rewrite (get_source_id_known _ _ _ Hs), Hr. cbn [fst snd decks set_decks sources].
  set (f := fun r => if bool_decide (deck_id r = deck_id row)
                     then refresh_deck now2 d2 r else r).
  assert (Hf : forall (g : DeckRow -> Z), (forall r, g (f r) = g r) ->
               g <$> (f <$> decks r1.2) = g <$> decks r1.2).
  { intros g Hg. rewrite <- list_fmap_compose. apply list_fmap_ext.
    intros ? r _. apply Hg. }
  split; [done|]. split.
  { apply Hf. intros r. unfold f. by destruct (bool_decide _). }
  split.
  { rewrite <- list_fmap_compose. apply list_fmap_ext.
    intros ? r _. cbn. unfold f. by destruct (bool_decide _). }
  split.
  { rewrite <- list_fmap_compose. apply list_fmap_ext.
    intros ? r _. cbn. unfold f. by destruct (bool_decide _). }
  exists srow, row, (refresh_deck now2 d2 row).
  split; [done|]. split; [done|]. split.
  { rewrite find_fmap_stable; [|intros; apply refresh_keeps_key].
    rewrite Hr. cbn. unfold f. by rewrite bool_decide_true. }
  by repeat split.
Qed.

Lemma find_miss_key sid sdid l :
  List.find (deck_matches sid sdid) l = None ->
  (sid, sdid) ∉ deck_key <$> l.
Proof.
  induction l as [|r l IH]; [intros _ H; by apply elem_of_nil in H|].
  cbn [List.find]. destruct (deck_matches sid sdid r) eqn:E; [done|].
  intros Hf. rewrite fmap_cons. intros [Hk|Hk]%elem_of_cons.
  - unfold deck_matches, deck_key in *. injection Hk as -> ->.
    by rewrite !bool_decide_true in E.
  - by apply IH.
Qed.

(** X2. A table whose rows have distinct (source, source deck id) keys keeps
    that through [upsert_deck]. *)
Theorem upsert_deck_keeps_keys_distinct now source sdid d db :
  NoDup (deck_key <$> decks db) ->
  NoDup (deck_key <$> decks (upsert_deck now source sdid d db).2).
Proof.
  intros Hnd. unfold upsert_deck.
  destruct (get_source_id_spec source db) as (Hd & _).
  destruct (get_source_id source db) as [sid db1]. cbn [fst snd] in *.
  rewrite <- Hd in Hnd.
  destruct (List.find (deck_matches sid sdid) (decks db1)) as [row|] eqn:E;
    cbn [snd decks set_decks].
  - rewrite <- list_fmap_compose.
    erewrite list_fmap_ext; [exact Hnd|].
    intros ? r _. cbn. by destruct (bool_decide _).
  - rewrite fmap_app. apply NoDup_app. split; [done|]. split.
    + intros k Hk Hin. cbn in Hin. apply list_elem_of_singleton in Hin.
      subst k. by apply find_miss_key in E.
    + cbn. apply NoDup_singleton.
Qed.

(** Two decks of one source and a third upsert of the first key. *)
Lemma upsert_deck_keeps_keys_distinct_witness :
  let db :=
    (upsert_deck 2 (str "moxfield") (str "b")
       (sample_deck (str "b") [str "Island"] [])
       (upsert_deck 1 (str "moxfield") (str "a")
          (sample_deck (str "a") [str "Sol Ring"] []) empty_db).2).2 in
  NoDup (deck_key <$> decks db) /\
  NoDup (deck_key <$> decks
           (upsert_deck 3 (str "moxfield") (str "a")
              (sample_deck (str "a") [str "Forest"] []) db).2).
Proof.
  intros db.
  assert (H : NoDup (deck_key <$> decks db)).
  { vm_compute. repeat constructor; set_solver. }
  split; [exact H|].
  exact (upsert_deck_keeps_keys_distinct 3 (str "moxfield") (str "a")
           (sample_deck (str "a") [str "Forest"] []) db H).
Defined.

(** X3. [insert_deck_cards] with [clear_existing] replaces the card rows of
    one deck by the cards given, in their order, and touches no row of
    another deck and no other table; without [clear_existing] it only
    appends. *)
Theorem insert_deck_cards_replaces_one_deck id cs db :
  let db' := insert_deck_cards id cs true db in
  card_rows id db' = card_row id <$> cs /\
  other_card_rows id db' = other_card_rows id db /\
  sources db' = sources db /\ decks db' = decks db /\
  deck_commanders db' = deck_commanders db /\
  unmapped_cards db' = unmapped_cards db /\
  ingestion_logs db' = ingestion_logs db /\
  deck_cards (insert_deck_cards id cs false db)
  = deck_cards db ++ (card_row id <$> cs).
Proof.
  destruct (insert_deck_cards_spec id cs db) as (H1 & H2 & H3 & H4).
  cbv zeta. split; [done|]. split; [|by repeat split].
  unfold other_card_rows, insert_deck_cards. cbn [deck_cards set_deck_cards].
  rewrite List.filter_app.
  assert (Hnew : forall l : list CardEntry,
            List.filter (fun r => negb (bool_decide (dc_deck_id r = id)))
              (card_row id <$> l) = []).
  { intros l. induction l as [|c l IH]; [done|]. cbn.
    rewrite bool_decide_true; [|done]. exact IH. }
  rewrite Hnew, app_nil_r. clear.
  induction (deck_cards db) as [|r l IH]; [done|]. cbn.
  destruct (bool_decide (dc_deck_id r = id)) eqn:E; cbn; [exact IH|].
  rewrite E. cbn. by rewrite IH.
Qed.

(** X4. [insert_deck_commanders] replaces the commander rows of one deck by
    the commanders given (by none for the empty list), and touches no
    row of another deck and no other table. *)
Theorem insert_deck_commanders_replaces_one_deck id cs db :
  let db' := insert_deck_commanders id cs db in
  commander_rows id db' = commander_row id <$> cs /\
  other_commander_rows id db' = other_commander_rows id db /\
  sources db' = sources db /\ decks db' = decks db /\
  deck_cards db' = deck_cards db /\
  unmapped_cards db' = unmapped_cards db /\
  ingestion_logs db' = ingestion_logs db.
Proof.
  destruct (insert_deck_commanders_spec id cs db) as (H1 & H2 & H3 & H4).
  cbv zeta. split; [done|]. split.
  2:{ unfold insert_deck_commanders. by destruct cs. }
  unfold other_commander_rows, insert_deck_commanders.
  assert (Hold : forall l : list CommanderRow,
            List.filter (fun r => negb (bool_decide (dcm_deck_id r = id)))
              (List.filter (fun r => negb (bool_decide (dcm_deck_id r = id))) l)
            = List.filter (fun r => negb (bool_decide (dcm_deck_id r = id))) l).
  { intros l. induction l as [|r l IH]; [done|]. cbn.
    destruct (bool_decide (dcm_deck_id r = id)) eqn:E; cbn; [exact IH|].
    rewrite E. cbn. by rewrite IH. }
  destruct cs as [|c cs]; cbn [deck_commanders set_deck_commanders];
    [apply Hold|].
  rewrite List.filter_app, Hold.
  assert (Hnew : forall l : list CommanderRef,
            List.filter (fun r => negb (bool_decide (dcm_deck_id r = id)))
              (commander_row id <$> l) = []).
  { intros l. induction l as [|x l IH]; [done|]. cbn.
    rewrite bool_decide_true; [|done]. exact IH. }
  by rewrite Hnew, app_nil_r.
Qed.

Lemma filter_filter_same {A} (p : A -> bool) l :
  List.filter p (List.filter p l) = List.filter p l.
Proof.
  induction l as [|x l IH]; [done|]. cbn.
  destruct (p x) eqn:E; cbn; [rewrite E; by f_equal|done].
Qed.

Lemma existsb_find {A} (p : A -> bool) l :
  existsb p l = false -> List.find p l = None /\ List.filter p l = [].
Proof.
  induction l as [|x l IH]; [done|]. cbn.
  destruct (p x); [done|]. cbn. apply IH.
Qed.

(** X5. Recording an unresolved name: a name that is new gets one row with
    frequency 1 and both dates now; a name that is there has its
    frequency raised by one and its last date moved, its first date
    kept.  Either way the frequency read for the name goes up by one,
    the rows of other names and the other tables are untouched, and
    names that were distinct stay distinct. *)
Theorem log_unmapped_card_counts_once now name db :
  let db' := log_unmapped_card now name db in
  unmapped_frequency name db' = unmapped_frequency name db + 1 /\
  unmapped_rows name db'
  = match unmapped_rows name db with
    | [] => [ {| um_name := name; um_frequency := 1;
                 um_first_seen := now; um_last_seen := now |} ]
    | rows => seen_again now <$> rows
    end /\
  other_unmapped_rows name db' = other_unmapped_rows name db /\
  (NoDup (um_name <$> unmapped_cards db) ->
   NoDup (um_name <$> unmapped_cards db')) /\
  deck_cards db' = deck_cards db /\ decks db' = decks db /\
  ingestion_logs db' = ingestion_logs db.
Proof.
  unfold log_unmapped_card, unmapped_frequency, unmapped_rows,
    other_unmapped_rows.
  set (p := fun r => bool_decide (um_name r = name)).
  set (q := fun r => negb (bool_decide (um_name r = name))).
  destruct (existsb p (unmapped_cards db)) eqn:Ex;
    cbn [unmapped_cards set_unmapped_cards deck_cards decks ingestion_logs].
  - set (f := fun r => if bool_decide (um_name r = name)
                       then {| um_name := um_name r;
                               um_frequency := um_frequency r + 1;
                               um_first_seen := um_first_seen r;
                               um_last_seen := now |} else r).
    assert (Hp : forall x, p (f x) = p x).
    { intros x. unfold p, f. destruct (bool_decide (um_name x = name)) eqn:E;
        [|done]. cbn. exact E. }
    assert (Hq : forall x, q (f x) = q x).
    { intros x. unfold q. f_equal. apply Hp. }
    split; [|split; [|split; [|split]]]; [| | | |done].
    + rewrite find_fmap_stable; [|done].
      apply existsb_exists in Ex as (x & Hx & Hpx).
      destruct (List.find p (unmapped_cards db)) as [r|] eqn:Ef.
      * cbn. apply List.find_some in Ef as [_ Hr]. unfold f.
        unfold p in Hr. by rewrite Hr.
      * eapply List.find_none in Ef; [|exact Hx]. congruence.
    + rewrite filter_fmap_stable; [|done].
      destruct (List.filter p (unmapped_cards db)) as [|r rows] eqn:Ef.
      { apply existsb_exists in Ex as (x & Hx & Hpx).
        assert (Hin : In x (List.filter p (unmapped_cards db)))
          by (by apply List.filter_In).
        rewrite Ef in Hin. done. }
      rewrite <- Ef. apply list_fmap_ext. intros ? x Hx.
      apply list_elem_of_lookup_2, list_elem_of_In, List.filter_In in Hx
        as [_ Hx].
      unfold f. unfold p in Hx. by rewrite Hx.
    + rewrite filter_fmap_stable; [|done].
      rewrite <- (list_fmap_id (List.filter q (unmapped_cards db))) at 2.
      apply list_fmap_ext. intros ? x Hx.
      apply list_elem_of_lookup_2, list_elem_of_In, List.filter_In in Hx
        as [_ Hx].
      unfold f. unfold q in Hx. by destruct (bool_decide _).
    + intros Hnd. rewrite <- list_fmap_compose.
      erewrite list_fmap_ext; [exact Hnd|].
      intros ? x _. cbn. unfold f. by destruct (bool_decide _).
  - destruct (existsb_find _ _ Ex) as [Hf Hfl].
    split; [|split; [|split; [|split]]]; [| | | |done].
    + rewrite find_app_miss, Hf; [|done]. cbn. unfold p.
      by rewrite bool_decide_true.
    + rewrite List.filter_app, Hfl. cbn. unfold p.
      by rewrite bool_decide_true.
    + rewrite List.filter_app. cbn. unfold q.
      rewrite bool_decide_true; [|done]. cbn. by rewrite app_nil_r.
    + intros Hnd. rewrite fmap_app. apply NoDup_app. split; [done|].
      split; [|cbn; apply NoDup_singleton].
      intros x Hx Hin. cbn in Hin. apply list_elem_of_singleton in Hin.
      subst x. apply list_elem_of_fmap in Hx as (r & Hr1 & Hr2).
      apply list_elem_of_In in Hr2.
      eapply List.find_none in Hf; [|exact Hr2].
      unfold p in Hf. by rewrite bool_decide_true in Hf.
Qed.

Lemma sql_limit_sublist {A} (limit : Z) (rows : list A) :
  sublist (sql_limit limit rows) rows /\
  (0 <= limit -> (length (sql_limit limit rows) <= Z.to_nat limit)%nat).
Proof.
  unfold sql_limit. case_bool_decide.
  - split; [done|lia].
  - split; [apply sublist_take|]. intros _. rewrite length_take. lia.
Qed.

Lemma pending_card_has_row limit db pc :
  pc ∈ get_decks_needing_normalization limit db ->
  exists r, r ∈ deck_cards db /\ dc_oracle_id r = None /\
            dc_deck_id r = pc_deck_id pc /\ dc_name r = pc_name pc /\
            dc_qty r = pc_qty pc /\ dc_zone r = pc_zone pc.
Proof.
  unfold get_decks_needing_normalization.
  set (rows := remove_dups _).
  destruct (sql_limit_sublist limit rows) as [Hsub _].
  intros Hpc.
  assert (Hin : pc ∈ rows) by (by eapply elem_of_sublist).
  unfold rows in Hin. rewrite elem_of_remove_dups in Hin.
  apply list_elem_of_fmap in Hin as (r & -> & Hr).
  apply list_elem_of_In, List.filter_In in Hr as [Hr1 Hr2].
  exists r. apply list_elem_of_In in Hr1.
  apply bool_decide_eq_true in Hr2. by repeat split.
Qed.

(** X6. The cards waiting for normalization: no row twice, every one the
    (deck, name, quantity, zone) of a card row without an oracle id, and
    never more of them than a limit that is not negative. *)
Theorem pending_cards_are_unresolved_rows limit db :
  let pending := get_decks_needing_normalization limit db in
  NoDup pending /\
  (forall pc, pc ∈ pending ->
     exists r, r ∈ deck_cards db /\ dc_oracle_id r = None /\
               dc_deck_id r = pc_deck_id pc /\ dc_name r = pc_name pc /\
               dc_qty r = pc_qty pc /\ dc_zone r = pc_zone pc) /\
  (0 <= limit -> (length pending <= Z.to_nat limit)%nat).
Proof.
  cbv zeta. split; [|split].
  - unfold get_decks_needing_normalization.
    set (rows := remove_dups _).
    destruct (sql_limit_sublist limit rows) as [Hsub _].
    eapply sublist_NoDup; [apply NoDup_remove_dups|exact Hsub].
  - intros pc. apply pending_card_has_row.
  - unfold get_decks_needing_normalization.
    set (rows := remove_dups _).
    by destruct (sql_limit_sublist limit rows) as [_ Hlen].
Qed.

(** X7. Once [update_card_oracle_id] has been run for a deck and a name, no
    card of that deck and name waits for normalization, and no card
    waits that did not wait before. *)
Theorem resolved_card_is_not_pending id name oid limit db :
  let db' := update_card_oracle_id id name oid db in
  forall pc, pc ∈ get_decks_needing_normalization limit db' ->
    ~ (pc_deck_id pc = id /\ pc_name pc = name) /\
    pc ∈ get_decks_needing_normalization (-1) db.
Proof.
  intros db' pc Hpc.
  destruct (pending_card_has_row limit db' pc Hpc)
    as (r & Hr & Hnone & Hd & Hn & Hq & Hz).
  unfold db', update_card_oracle_id in Hr. cbn [deck_cards set_deck_cards] in Hr.
  apply list_elem_of_fmap in Hr as (r0 & Hr0 & Hin).
  destruct (bool_decide (dc_deck_id r0 = id) && bool_decide (dc_name r0 = name))
    eqn:E.
  { subst r. done. }
  subst r. split.
  - intros [H1 H2]. rewrite <- Hd, <- Hn in *.
    rewrite !bool_decide_true in E; done.
  - unfold get_decks_needing_normalization, sql_limit.
    rewrite bool_decide_true; [|lia].
    rewrite elem_of_remove_dups. apply list_elem_of_fmap. exists r0. split.
    + destruct pc. cbn in *. by subst.
    + apply list_elem_of_In, List.filter_In. split; [by apply list_elem_of_In|].
      by apply bool_decide_eq_true.
Qed.

(** Two cards of one deck, the first of them resolved. *)
Lemma resolved_card_is_not_pending_witness :
  let db :=
    insert_deck_cards 1 [main_card (str "Sol Ring"); main_card (str "Island")]
      true empty_db in
  let db' := update_card_oracle_id 1 (str "Sol Ring") (str "id-1") db in
  let pc := {| pc_deck_id := 1; pc_name := str "Island"; pc_qty := 1;
               pc_zone := str "main" |} in
  pc ∈ get_decks_needing_normalization 10 db' /\
  ~ (pc_deck_id pc = 1 /\ pc_name pc = str "Sol Ring") /\
  pc ∈ get_decks_needing_normalization (-1) db.
Proof.
  intros db db' pc.
  assert (H : pc ∈ get_decks_needing_normalization 10 db')
    by (vm_compute; constructor).
  split; [exact H|].
  exact (resolved_card_is_not_pending 1 (str "Sol Ring") (str "id-1") 10 db
           pc H).
Defined.

(** [get_source_id] gets or creates: asking again for the same name
    gives the same id and changes nothing, the rows there before are
    kept in place, and at most one row is added. *)
Theorem get_source_id_creates_once name db :
  let r := get_source_id name db in
  get_source_id name r.2 = r /\
  sources db `prefix_of` sources r.2 /\
  (length (sources r.2) <= S (length (sources db)))%nat /\
  decks r.2 = decks db /\ deck_cards r.2 = deck_cards db /\
  deck_commanders r.2 = deck_commanders db.
Proof.
  destruct (get_source_id_spec name db) as (H1 & H2 & H3 & row & Hf & Hid).
  cbv zeta. split; [|split; [|split]]; [| | |by repeat split].
  - rewrite (get_source_id_known _ _ _ Hf), Hid.
    by destruct (get_source_id name db).
  - clear. unfold get_source_id.
    destruct (List.find _ (sources db));
      cbn [snd sources set_sources]; [reflexivity|].
    by apply prefix_app_r.
  - clear. unfold get_source_id.
    destruct (List.find _ (sources db));
      cbn [snd sources set_sources]; [lia|].
    rewrite length_app. cbn. lia.
Qed.

End TableFacts.

(** ** Building and reading the index (src/normalization/scryfall.py) *)

Section IndexFacts.
Import PyStr Scryfall Scenario.

Lemma add_card_keys cache c cache' :
  add_card cache c = Some cache' ->
  exists oid,
    card_oracle_id c = Some oid /\
    cache' = foldl (fun m k => <[k := oid]> m) cache (card_keys c).
Proof.
  unfold add_card, card_keys.
  destruct (card_oracle_id c) as [oid|]; [|done].
  destruct (card_name c) as [name|]; [|done].
  intros [= <-]. exists oid. split; [done|].
  assert (Hfaces : forall faces m,
            add_faces oid faces m
            = foldl (fun m k => <[k := oid]> m) m
                (omap (fun face =>
                   match face_name face with
                   | Some (x :: fname) => Some (_normalize_name (x :: fname))
                   | _ => None
                   end) faces)).
  { intros faces. unfold add_faces.
    induction faces as [|f faces IH]; intros m; [done|].
    cbn [foldl omap list_omap]. rewrite IH.
    destruct (face_name f) as [[|x fname]|]; done. }
  assert (Hparts : forall parts m,
            add_parts oid parts m
            = foldl (fun m k => <[k := oid]> m) m (_normalize_name <$> parts)).
  { intros parts. unfold add_parts.
    induction parts as [|q parts IH]; intros m; [done|].
    cbn [foldl fmap list_fmap]. by rewrite IH. }
  rewrite !foldl_app.
  destruct (printed_name c) as [[|x pname]|];
    destruct (contains (str "//") name);
    destruct (card_faces c) as [faces|];
    rewrite ?Hparts, ?Hfaces; reflexivity.
Qed.

Lemma foldl_insert_last (oid : pystr) keys : forall (m : gmap pystr pystr) k,
  foldl (fun m k => <[k := oid]> m) m keys !! k
  = if decide (k ∈ keys) then Some oid else m !! k.
Proof.
  induction keys as [|k0 keys IH]; intros m k; cbn [foldl].
  { rewrite decide_False; [done|]. by intros H%elem_of_nil. }
  rewrite IH. destruct (decide (k ∈ keys)) as [Hin|Hout].
  - rewrite decide_True; [done|set_solver].
  - destruct (decide (k = k0)) as [->|Hne].
    + rewrite decide_True; [|set_solver]. apply lookup_insert_eq.
    + rewrite decide_False; [|set_solver]. by apply lookup_insert_ne.
Qed.

Lemma add_cards_well_formed cards : forall cache,
  Forall well_formed cards -> (add_cards cache cards).2 = true.
Proof.
  induction cards as [|c cards IH]; intros cache Hwf; [done|].
  apply Forall_cons in Hwf as [[[oid Ho] [name Hn]] Hwf].
  cbn [add_cards]. unfold add_card. rewrite Ho, Hn. apply IH, Hwf.
Qed.

Lemma add_cards_untouched cards : forall cache k,
  (forall c, c ∈ cards -> k ∉ card_keys c) ->
  (add_cards cache cards).1 !! k = cache !! k.
Proof.
  induction cards as [|c cards IH]; intros cache k Hk; [done|].
  cbn [add_cards]. destruct (add_card cache c) as [cache'|] eqn:E; [|done].
  destruct (add_card_keys _ _ _ E) as (oid & _ & ->).
  rewrite IH; [|intros; apply Hk; set_solver].
  rewrite foldl_insert_last, decide_False; [done|]. apply Hk. set_solver.
Qed.

Lemma add_cards_app cards1 : forall cache cards2,
  (add_cards cache cards1).2 = true ->
  add_cards cache (cards1 ++ cards2)
  = add_cards (add_cards cache cards1).1 cards2.
Proof.
  induction cards1 as [|c cards1 IH]; intros cache cards2 H; [done|].
  cbn [add_cards app] in *.
  destruct (add_card cache c); [by apply IH|done].
Qed.

(** X8. A build from a file of well-formed cards succeeds, dates the index,
    and leaves under every key a card writes the oracle id of that card,
    unless a later card of the file writes the same key; a name with
    that key then resolves to that id by a direct hit, and the index
    does not ask for a refresh before the cadence has passed. *)
Theorem build_then_resolve now mtime before c after remote st k oid :
  Forall well_formed (before ++ c :: after) ->
  card_oracle_id c = Some oid ->
  k ∈ card_keys c ->
  (forall c', c' ∈ after -> k ∉ card_keys c') ->
  let w := {| local_bulk := Some (mtime, Cards (before ++ c :: after));
              remote_bulk := remote |} in
  exists st',
    build_name_resolver now st w = (true, st', w) /\
    last_updated st' = Some now /\
    oracle_cache st' !! k = Some oid /\
    (forall name now' w', _normalize_name name = k ->
       resolve_card_name now' st' w' name = (Some oid, st', w')) /\
    (forall cadence now',
       needs_refresh cadence now' st'
       = bool_decide (cadence * 3600 < now' - now)).
Proof.
  intros Hwf Ho Hk Hafter w.
  unfold build_name_resolver. cbn [local_bulk w negb].
  pose proof (add_cards_well_formed _ ∅ Hwf) as Hok.
  destruct (add_cards ∅ (before ++ c :: after)) as [cache ok] eqn:E.
  cbn [snd] in Hok. subst ok. eexists. split; [reflexivity|].
  cbn [last_updated oracle_cache]. split; [done|].
  assert (Hcache : cache !! k = Some oid).
  { apply Forall_app in Hwf as [Hwf1 Hwf2].
    pose proof (add_cards_well_formed _ ∅ Hwf1) as Hok1.
    rewrite add_cards_app in E; [|done].
    cbn [add_cards] in E.
    destruct (add_card (add_cards ∅ before).1 c) as [cache1|] eqn:Ec.
    2:{ unfold add_card in Ec. rewrite Ho in Ec.
        apply Forall_cons in Hwf2 as [[_ [name Hn]] _]. by rewrite Hn in Ec. }
    destruct (add_card_keys _ _ _ Ec) as (oid' & Ho' & Hc1).
    assert (oid' = oid) by congruence. subst oid'.
    replace cache with (add_cards cache1 after).1 by (by rewrite E).
    rewrite add_cards_untouched; [|done].
    rewrite Hc1, foldl_insert_last. by rewrite decide_True. }
  split; [done|]. split.
  - intros name now' w' Hname. apply resolve_direct. cbn. by rewrite Hname.
  - intros cadence now'. reflexivity.
Qed.

(** A split card, then a card with a face, then the split card's second
    half entered again under another id: the first half keeps the first
    id. *)
Lemma build_then_resolve_witness :
  let fire_ice :=
    {| card_oracle_id := Some (str "id-1");
       card_name := Some (str "Fire // Ice");
       card_faces := None; printed_name := None |} in
  let delver :=
    {| card_oracle_id := Some (str "id-2");
       card_name := Some (str "Delver of Secrets");
       card_faces := Some [ {| face_name := Some (str "Insectile Aberration") |} ];
       printed_name := None |} in
  let ice :=
    {| card_oracle_id := Some (str "id-3");
       card_name := Some (str "Ice");
       card_faces := None; printed_name := None |} in
  let w := {| local_bulk := Some (5, Cards ([] ++ fire_ice :: [delver; ice]));
              remote_bulk := None |} in
  exists st',
    build_name_resolver 9 init w = (true, st', w) /\
    last_updated st' = Some 9 /\
    oracle_cache st' !! _normalize_name (str "fire") = Some (str "id-1") /\
    (forall name now' w',
       _normalize_name name = _normalize_name (str "fire") ->
       resolve_card_name now' st' w' name = (Some (str "id-1"), st', w')) /\
    (forall cadence now',
       needs_refresh cadence now' st'
       = bool_decide (cadence * 3600 < now' - 9)).
Proof.
  intros fire_ice delver ice w.
  apply (build_then_resolve 9 5 [] fire_ice [delver; ice] None init
           (_normalize_name (str "fire")) (str "id-1")).
  - repeat constructor; by eexists.
  - reflexivity.
  - vm_compute. set_solver.
  - intros c' Hc'.
    repeat (apply elem_of_cons in Hc' as [->|Hc']; [vm_compute; set_solver|]).
    by apply elem_of_nil in Hc'.
Defined.

(** X9. A card without an oracle id or without a name stops the build: it
    reports failure, the index holds what the cards before it wrote and
    nothing of the cards after it, the date of the index is not moved,
    and the resolution that asked for the build returns none. *)
Theorem build_stops_at_malformed_card now mtime good bad rest remote st :
  Forall well_formed good ->
  card_oracle_id bad = None \/ card_name bad = None ->
  let w := {| local_bulk := Some (mtime, Cards (good ++ bad :: rest));
              remote_bulk := remote |} in
  build_name_resolver now st w
  = (false, {| oracle_cache := (add_cards ∅ good).1;
               last_updated := last_updated st |}, w) /\
  (oracle_cache st = ∅ ->
   forall name, (resolve_card_name now st w name).1.1 = None).
Proof.
  intros Hwf Hbad w.
  assert (Hb : build_name_resolver now st w
               = (false, {| oracle_cache := (add_cards ∅ good).1;
                            last_updated := last_updated st |}, w)).
  { unfold build_name_resolver. cbn [local_bulk w negb].
    rewrite add_cards_app; [|by apply add_cards_well_formed].
    cbn [add_cards].
    assert (Hnone : add_card (add_cards ∅ good).1 bad = None).
    { unfold add_card. destruct Hbad as [-> | Hn]; [done|].
      rewrite Hn. by destruct (card_oracle_id bad). }
    by rewrite Hnone. }
  split; [done|]. intros Hempty name. unfold resolve_card_name.
  rewrite decide_True; [|done]. by rewrite Hb.
Qed.

(** A file of two cards, the second without an oracle id. *)
Lemma build_stops_at_malformed_card_witness :
  let good :=
    {| card_oracle_id := Some (str "id-1"); card_name := Some (str "Sol Ring");
       card_faces := None; printed_name := None |} in
  let bad :=
    {| card_oracle_id := None; card_name := Some (str "Island");
       card_faces := None; printed_name := None |} in
  let w := {| local_bulk := Some (5, Cards ([good] ++ bad :: []));
              remote_bulk := None |} in
  build_name_resolver 9 init w
  = (false, {| oracle_cache := (add_cards ∅ [good]).1;
               last_updated := last_updated init |}, w) /\
  (oracle_cache init = ∅ ->
   forall name, (resolve_card_name 9 init w name).1.1 = None).
Proof.
  intros good bad w.
  apply (build_stops_at_malformed_card 9 5 [good] bad [] None init).
  - repeat constructor; by eexists.
  - by left.
Defined.

(** X10. With an index in place a resolution never builds and never touches
    the world; the id it returns is stored in the index under some key,
    the only change to the index is the normalized name entered with
    the id returned, and a miss changes nothing. *)
Theorem resolve_reads_the_index now st w name :
  oracle_cache st <> ∅ ->
  match resolve_card_name now st w name with
  | (Some oid, st1, w1) =>
      w1 = w /\
      (exists key, oracle_cache st !! key = Some oid) /\
      oracle_cache st1 = <[_normalize_name name := oid]> (oracle_cache st) /\
      last_updated st1 = last_updated st
  | (None, st1, w1) =>
      w1 = w /\ st1 = st /\ oracle_cache st !! _normalize_name name = None
  end.
Proof.
  intros Hne. unfold resolve_card_name. rewrite decide_False; [|done].
  unfold lookup_name.
  destruct (oracle_cache st !! _normalize_name name) as [oid|] eqn:E.
  { split; [done|]. split; [by eexists|]. split; [|done].
    by rewrite insert_id. }
  destruct (first_hit (oracle_cache st) (variations (_normalize_name name)))
    as [oid|] eqn:Ef.
  { repeat split. clear E.
    induction (variations (_normalize_name name)) as [|v vs IH]; [done|].
    cbn [first_hit] in Ef.
    destruct (oracle_cache st !! v) as [o|] eqn:Ev; [|by apply IH].
    injection Ef as ->. by exists v. }
  by rewrite basic_lands_unreachable.
Qed.

(** An index with one entry: a hit and a miss. *)
Lemma resolve_reads_the_index_witness :
  let st := {| oracle_cache := {[ _normalize_name (str "Sol Ring") := str "id-1" ]};
               last_updated := Some 0 |} in
  resolve_card_name 1 st offline_world (str "sol  ring")
  = (Some (str "id-1"), st, offline_world) /\
  match resolve_card_name 1 st offline_world (str "Island") with
  | (Some oid, st1, w1) =>
      w1 = offline_world /\
      (exists key, oracle_cache st !! key = Some oid) /\
      oracle_cache st1
      = <[_normalize_name (str "Island") := oid]> (oracle_cache st) /\
      last_updated st1 = last_updated st
  | (None, st1, w1) =>
      w1 = offline_world /\ st1 = st /\
      oracle_cache st !! _normalize_name (str "Island") = None
  end.
Proof.
  intros st. split; [by vm_compute|].
  apply (resolve_reads_the_index 1 st offline_world (str "Island")).
  intros H. apply (f_equal (fun m => m !! _normalize_name (str "Sol Ring"))) in H.
  by vm_compute in H.
Defined.


End IndexFacts.

(** ** The jobs (src/orchestration/ingestion_job.py) *)

Section JobFacts.
Import PyStr Database IngestionJob Scenario.





(** X13. An export called without ids, or with an empty list, runs the
    discovery first.  A discovery that fails is the result of the
    export: its error record is the only one written and no deck is
    fetched.  A discovery that finds nothing is followed by an export
    over nothing, with a record of its own; one that finds ids is
    followed by the export of those ids. *)
Theorem export_without_ids_discovers_first
    now duration job adapter deck_ids max_decks :
  moxfield job = Some adapter ->
  deck_ids = None \/ deck_ids = Some [] ->
  let r := run_moxfield_export now duration deck_ids max_decks job in
  let discovery := run_moxfield_discovery duration job in
  match discover_decks adapter with
  | inl e =>
      r = discovery /\ r.1 = JobError e /\
      decks (db r.2) = decks (db job) /\
      exists run,
        ingestion_logs (db r.2) = ingestion_logs (db job) ++ [run] /\
        status run = error /\ operation run = str "discovery" /\
        errors_count run = 1 /\ message run = Some e
  | inr [] =>
      r.1 = JobExported 0 0 0 /\
      decks (db r.2) = decks (db job) /\
      exists run,
        ingestion_logs (db r.2)
        = ingestion_logs (db job)
          ++ [run; counted_run (str "moxfield") (str "export") 0 0 0 duration] /\
        status run = success /\ operation run = str "discovery" /\
        decks_processed run = 0
  | inr (id :: ids) =>
      r = run_moxfield_export now duration (Some (id :: ids)) max_decks
            discovery.2 /\
      exists run,
        ingestion_logs (db discovery.2) = ingestion_logs (db job) ++ [run] /\
        status run = success /\ operation run = str "discovery" /\
        decks_processed run = Z.of_nat (length (id :: ids))
  end.
Proof.
  intros Ha Hids.
  assert (Hr : run_moxfield_export now duration deck_ids max_decks job
               = run_moxfield_export now duration None max_decks job)
    by (by destruct Hids as [-> | ->]).
  cbv zeta. rewrite Hr. clear Hr Hids deck_ids.
  unfold run_moxfield_export, run_moxfield_discovery. rewrite Ha.
  destruct (discover_decks adapter) as [e|[|id ids]].
  - cbn. split; [done|]. split; [done|]. split; [done|].
    eexists. by repeat split.
  - replace (slice_to max_decks []) with (@nil pystr)
      by (unfold slice_to; destruct (max_decks <? 0); by rewrite take_nil).
    cbn. split; [done|]. split; [done|].
    eexists. split; [rewrite <- app_assoc; reflexivity|].
    by repeat split.
  - cbn [fst snd moxfield db]. split; [done|].
    eexists. by repeat split.
Qed.

(** A job whose discovery raises, called without ids. *)
Lemma export_without_ids_discovers_first_witness :
  let adapter :=
    {| fetch_deck := fun _ _ => FetchNone;
       discover_decks := inl (str "timeout") |} in
  let job := {| moxfield := Some adapter; db := empty_db |} in
  let r := run_moxfield_export 7 2 None 50 job in
  r = run_moxfield_discovery 2 job /\ r.1 = JobError (str "timeout") /\
  decks (db r.2) = decks (db job) /\
  exists run,
    ingestion_logs (db r.2) = ingestion_logs (db job) ++ [run] /\
    status run = error /\ operation run = str "discovery" /\
    errors_count run = 1 /\ message run = Some (str "timeout").
Proof.
  intros adapter job.
  apply (export_without_ids_discovers_first 7 2 job adapter None 50).
  - reflexivity.
  - by left.
Defined.



Lemma incremental_loop_stops now adapter p l2 l1 : forall acc,
  fetch_deck_bulk adapter p = Some [] ->
  incremental_loop now adapter (l1 ++ p :: l2) acc
  = incremental_loop now adapter l1 acc.
Proof.
  induction l1 as [|q l1 IH]; intros acc Hp.
  { cbn [app incremental_loop]. by rewrite Hp. }
  cbn [app incremental_loop].
  destruct (fetch_deck_bulk adapter q) as [[|d decks]|]; [done| |];
    by apply IH.
Qed.

Lemma incremental_loop_ext now a b pages : forall acc,
  (forall p, p ∈ pages -> fetch_deck_bulk a p = fetch_deck_bulk b p) ->
  incremental_loop now a pages acc = incremental_loop now b pages acc.
Proof.
  induction pages as [|q pages IH]; intros acc H; [done|].
  cbn [incremental_loop]. rewrite <- (H q) by set_solver.
  destruct (fetch_deck_bulk a q) as [[|d decks]|]; [done| |];
    apply IH; intros; apply H; set_solver.
Qed.

(** X14. The incremental run ends at the first page that comes back empty:
    what it stores, counts and records is what a run limited to the
    pages before that one stores, counts and records, so no page after
    it has any effect. *)
Theorem incremental_ends_at_empty_page now duration adapter max_pages p db :
  1 <= p <= Z.min max_pages 10 ->
  fetch_deck_bulk adapter p = Some [] ->
  run_archidekt_incremental now duration (Some adapter) max_pages db
  = run_archidekt_incremental now duration (Some adapter) (p - 1) db.
Proof.
  intros Hp He. unfold run_archidekt_incremental.
  replace (Z.min (p - 1) 10) with (p - 1) by lia.
  replace (Z.min max_pages 10) with ((p - 1) + (1 + (Z.min max_pages 10 - p)))
    by lia.
  rewrite seqZ_app by lia. rewrite (seqZ_cons (1 + (p - 1))) by lia.
  replace (1 + (p - 1)) with p by lia.
  by rewrite incremental_loop_stops.
Qed.

(** Three pages, the second empty, the third with a deck. *)
Lemma incremental_ends_at_empty_page_witness :
  let deck := sample_deck (str "7") [str "Sol Ring"] [str "Atraxa"] in
  let later := sample_deck (str "8") [str "Island"] [] in
  let adapter := paged_adapter [Some [deck]; Some []; Some [later]] in
  (run_archidekt_incremental 7 2 (Some adapter) 50 empty_db).1
  = JobExported 1 2 0 /\
  run_archidekt_incremental 7 2 (Some adapter) 50 empty_db
  = run_archidekt_incremental 7 2 (Some adapter) (2 - 1) empty_db.
Proof.
  intros deck later adapter. split; [by vm_compute|].
  apply (incremental_ends_at_empty_page 7 2 adapter 50 2 empty_db).
  - lia.
  - reflexivity.
Defined.

(** The incremental run reads pages 1 to min(max_pages, 10) at most:
    two adapters that answer alike on those pages give the same run,
    whatever they would answer beyond. *)
Theorem incremental_reads_ten_pages_at_most now duration a b max_pages db :
  (forall p, 1 <= p <= Z.min max_pages 10 ->
     fetch_deck_bulk a p = fetch_deck_bulk b p) ->
  run_archidekt_incremental now duration (Some a) max_pages db
  = run_archidekt_incremental now duration (Some b) max_pages db.
Proof.
  intros H. unfold run_archidekt_incremental.
  rewrite (incremental_loop_ext now a b); [done|].
  intros p Hp%elem_of_seqZ. apply H. lia.
Qed.

(** Twelve pages of one deck each, read with the default page limit of
    the configuration, and the same with pages 11 and 12 failing. *)
Lemma incremental_reads_ten_pages_at_most_witness :
  let page := Some [sample_deck (str "7") [str "Sol Ring"] []] in
  let a := paged_adapter (replicate 12 page) in
  let b := paged_adapter (replicate 10 page ++ [None; None]) in
  (run_archidekt_incremental 7 2 (Some a) 50 empty_db).1
  = JobExported 10 10 0 /\
  run_archidekt_incremental 7 2 (Some a) 50 empty_db
  = run_archidekt_incremental 7 2 (Some b) 50 empty_db.
Proof.
  intros page a b. split; [by vm_compute|].
  apply (incremental_reads_ten_pages_at_most 7 2 a b 50 empty_db).
  intros p Hp.
  assert (Hcases : p = 1 \/ p = 2 \/ p = 3 \/ p = 4 \/ p = 5 \/ p = 6 \/
                   p = 7 \/ p = 8 \/ p = 9 \/ p = 10) by lia.
  repeat (destruct Hcases as [-> | Hcases]; [reflexivity|]).
  by subst p.
Defined.





End JobFacts.

(** ** Normalizing the cards of a deck (src/normalization/normalizer.py) *)

Section DeckNormalizerFacts.
Import PyStr Scryfall Database Normalizer Scenario.

Lemma total_unmapped_log now name db :
  NoDup (um_name <$> unmapped_cards db) ->
  total_unmapped (log_unmapped_card now name db) = total_unmapped db + 1 /\
  NoDup (um_name <$> unmapped_cards (log_unmapped_card now name db)).
Proof.
  unfold total_unmapped, log_unmapped_card.
  destruct (existsb _ _) eqn:E; cbn [unmapped_cards set_unmapped_cards].
  - apply existsb_exists in E as (r0 & Hin & Hr0).
    apply bool_decide_eq_true in Hr0. apply list_elem_of_In in Hin.
    revert Hin. generalize (unmapped_cards db). intros table.
    induction table as [|r rows IH]; intros Hin Hnd.
    { by apply elem_of_nil in Hin. }
    rewrite fmap_cons in Hnd. apply NoDup_cons in Hnd as [Hr Hnd].
    rewrite !fmap_cons. cbn [foldr].
    case_bool_decide as Hname.
    + cbn [um_frequency um_name]. split.
      * assert (Hrest : ((fun r1 => if bool_decide (um_name r1 = name)
                                    then {| um_name := um_name r1;
                                            um_frequency := um_frequency r1 + 1;
                                            um_first_seen := um_first_seen r1;
                                            um_last_seen := now |}
                                    else r1) <$> rows) = rows).
        { clear IH Hin Hnd. induction rows as [|x rows IH]; [done|].
          rewrite fmap_cons.
          rewrite bool_decide_eq_false_2.
          - f_equal. apply IH. intros H. apply Hr. rewrite fmap_cons.
            by apply list_elem_of_further.
          - intros Hx. apply Hr. rewrite fmap_cons, Hname, <- Hx.
            apply list_elem_of_here. }
        rewrite Hrest. lia.
      * apply NoDup_cons. split; [|].
        -- intros Hc. apply Hr. rewrite <- list_fmap_compose in Hc.
           erewrite list_fmap_ext in Hc; [exact Hc|].
           intros ? x _. cbn. by case_bool_decide.
        -- rewrite <- list_fmap_compose.
           erewrite list_fmap_ext; [exact Hnd|].
           intros ? x _. cbn. by case_bool_decide.
    + apply elem_of_cons in Hin as [<-|Hin]; [done|].
      destruct (IH Hin Hnd) as [IH1 IH2]. split; [lia|].
      apply NoDup_cons. split; [|done].
      intros Hc. apply Hr. rewrite <- list_fmap_compose in Hc.
      erewrite list_fmap_ext in Hc; [exact Hc|].
      intros ? x _. cbn. by case_bool_decide.
  - intros Hnd. rewrite !fmap_app, foldr_app. cbn [fmap list_fmap foldr um_frequency um_name].
    split.
    + generalize (um_frequency <$> unmapped_cards db). intros l.
      induction l as [|x l IH]; cbn [foldr]; lia.
    + apply NoDup_app. split; [done|]. split; [|apply NoDup_singleton].
      intros x Hx ->%list_elem_of_singleton.
      apply list_elem_of_fmap in Hx as (r & Hname & Hr).
      apply list_elem_of_In in Hr.
      assert (existsb (fun r => bool_decide (um_name r = name))
                (unmapped_cards db) = true); [|congruence].
      apply existsb_exists. exists r. split; [done|].
      by apply bool_decide_eq_true.
Qed.

Lemma update_card_oracle_id_keeps id name oid db :
  let db' := update_card_oracle_id id name oid db in
  card_identity <$> deck_cards db' = card_identity <$> deck_cards db /\
  other_card_rows id db' = other_card_rows id db /\
  (forall i r, deck_cards db !! i = Some r -> is_Some (dc_oracle_id r) ->
     exists r', deck_cards db' !! i = Some r' /\ is_Some (dc_oracle_id r')) /\
  decks db' = decks db /\ unmapped_cards db' = unmapped_cards db.
Proof.
  unfold update_card_oracle_id, other_card_rows.
  cbn [deck_cards set_deck_cards decks unmapped_cards].
  split; [|split; [|split; [|done]]].
  - rewrite <- list_fmap_compose. apply list_fmap_ext.
    intros ? r _. cbn. by destruct (_ && _).
  - induction (deck_cards db) as [|r rows IH]; [done|].
    rewrite fmap_cons. cbn [List.filter].
    destruct (bool_decide (dc_deck_id r = id) && bool_decide (dc_name r = name))
      eqn:E.
    + apply andb_true_iff in E as [E1 E2]. cbn [dc_deck_id].
      rewrite E1. cbn [negb]. apply IH.
    + rewrite IH. done.
  - intros i r Hi Hr. rewrite list_lookup_fmap, Hi. cbn.
    eexists. split; [done|]. by destruct (_ && _).
Qed.

(** X17. [normalize_deck_cards] counts every card of the list once, as
    normalized or as failed.  In the table of cards it changes oracle
    ids only: deck, name, quantity and zone of every row stay, rows of
    other decks are untouched, and no row that had an oracle id loses
    it.  The deck table is left alone. *)
Theorem deck_cards_counted_once now deck_id cards cn :
  let r := normalize_deck_cards now deck_id cards cn in
  let '(normalized_count, failed_count) := r.1 in
  0 <= normalized_count /\ 0 <= failed_count /\
  normalized_count + failed_count = Z.of_nat (length cards) /\
  card_identity <$> deck_cards (db r.2) = card_identity <$> deck_cards (db cn) /\
  other_card_rows deck_id (db r.2) = other_card_rows deck_id (db cn) /\
  (forall i row, deck_cards (db cn) !! i = Some row ->
     is_Some (dc_oracle_id row) ->
     exists row', deck_cards (db r.2) !! i = Some row' /\
                  is_Some (dc_oracle_id row')) /\
  decks (db r.2) = decks (db cn).
Proof.
  unfold normalize_deck_cards.
  assert (H : forall n f cn0,
    let r := foldl (normalize_card now deck_id) (n, f, cn0) cards in
    n <= r.1.1 /\ f <= r.1.2 /\
    r.1.1 + r.1.2 = n + f + Z.of_nat (length cards) /\
    card_identity <$> deck_cards (db r.2) = card_identity <$> deck_cards (db cn0) /\
    other_card_rows deck_id (db r.2) = other_card_rows deck_id (db cn0) /\
    (forall i row, deck_cards (db cn0) !! i = Some row ->
       is_Some (dc_oracle_id row) ->
       exists row', deck_cards (db r.2) !! i = Some row' /\
                    is_Some (dc_oracle_id row')) /\
    decks (db r.2) = decks (db cn0)).
  { induction cards as [|c cards IH]; intros n f cn0.
    { cbn. repeat split; try lia. intros i row Hi Hr. by exists row. }
    cbn [foldl length].
    assert (Hstep : exists n1 f1 cn1,
      normalize_card now deck_id (n, f, cn0) c = (n1, f1, cn1) /\
      n <= n1 /\ f <= f1 /\ n1 + f1 = n + f + 1 /\
      card_identity <$> deck_cards (db cn1) = card_identity <$> deck_cards (db cn0) /\
      other_card_rows deck_id (db cn1) = other_card_rows deck_id (db cn0) /\
      (forall i row, deck_cards (db cn0) !! i = Some row ->
         is_Some (dc_oracle_id row) ->
         exists row', deck_cards (db cn1) !! i = Some row' /\
                      is_Some (dc_oracle_id row')) /\
      decks (db cn1) = decks (db cn0)).
    { unfold normalize_card.
      destruct (resolve_card_name _ _ _ _) as [[[[|x oid]|] sc] w].
      - do 3 eexists. split; [reflexivity|]. cbn [db].
        unfold log_unmapped_card, other_card_rows.
        destruct (existsb _ _); cbn; repeat split; try lia;
          intros i row Hi Hr; by exists row.
      - do 3 eexists. split; [reflexivity|]. cbn [db].
        destruct (update_card_oracle_id_keeps deck_id (ce_name c) (x :: oid)
                    (db cn0)) as (U1 & U2 & U3 & U4 & U5).
        repeat split; try lia; done.
      - do 3 eexists. split; [reflexivity|]. cbn [db].
        unfold log_unmapped_card, other_card_rows.
        destruct (existsb _ _); cbn; repeat split; try lia;
          intros i row Hi Hr; by exists row. }
    destruct Hstep as (n1 & f1 & cn1 & -> & S1 & S2 & S3 & S4 & S5 & S6 & S7).
    destruct (IH n1 f1 cn1) as (H1 & H2 & H3 & H4 & H5 & H6 & H7).
    cbv zeta. rewrite H4, H5, H7. repeat split; try lia; try done.
    intros i row Hi Hr. destruct (S6 i row Hi Hr) as (row1 & Hi1 & Hr1).
    by apply (H6 i row1). }
  specialize (H 0 0 cn). cbv zeta in H.
  destruct (foldl _ _ _) as [[n f] cn']. cbn [fst snd] in *.
  destruct H as (H1 & H2 & H3 & H4 & H5 & H6 & H7).
  repeat split; try lia; done.
Qed.

(** X18. Every card [normalize_deck_cards] counts as failed is recorded once
    in the table of unresolved names: over a table with one row a name,
    the frequencies grow by the number of failures in all, and the
    names stay one row each. *)
Theorem failures_are_recorded_once now deck_id cards cn :
  NoDup (um_name <$> unmapped_cards (db cn)) ->
  let r := normalize_deck_cards now deck_id cards cn in
  total_unmapped (db r.2) = total_unmapped (db cn) + r.1.2 /\
  NoDup (um_name <$> unmapped_cards (db r.2)).
Proof.
  unfold normalize_deck_cards.
  assert (H : forall n f cn0,
    NoDup (um_name <$> unmapped_cards (db cn0)) ->
    let r := foldl (normalize_card now deck_id) (n, f, cn0) cards in
    total_unmapped (db r.2) - r.1.2 = total_unmapped (db cn0) - f /\
    NoDup (um_name <$> unmapped_cards (db r.2))).
  { induction cards as [|c cards IH]; intros n f cn0 Hnd; [done|].
    cbn [foldl].
    destruct (normalize_card now deck_id (n, f, cn0) c) as [[n1 f1] cn1] eqn:E.
    unfold normalize_card in E.
    destruct (resolve_card_name _ _ _ _) as [[[[|x oid]|] sc] w];
      injection E as <- <- <-.
    - destruct (total_unmapped_log now (ce_name c) (db cn0) Hnd) as [T1 T2].
      destruct (IH n (f + 1)
                  {| scryfall := sc; world := w;
                     db := log_unmapped_card now (ce_name c) (db cn0) |} T2)
        as [H1 H2].
      cbv zeta. split; [|exact H2]. etransitivity; [exact H1|]. cbn [db]. lia.
    - destruct (IH (n + 1) f
                  {| scryfall := sc; world := w;
                     db := update_card_oracle_id deck_id (ce_name c) (x :: oid)
                             (db cn0) |} Hnd)
        as [H1 H2].
      cbv zeta. split; [|exact H2]. etransitivity; [exact H1|]. reflexivity.
    - destruct (total_unmapped_log now (ce_name c) (db cn0) Hnd) as [T1 T2].
      destruct (IH n (f + 1)
                  {| scryfall := sc; world := w;
                     db := log_unmapped_card now (ce_name c) (db cn0) |} T2)
        as [H1 H2].
      cbv zeta. split; [|exact H2]. etransitivity; [exact H1|]. cbn [db]. lia. }
  intros Hnd. destruct (H 0 0 cn Hnd) as [H1 H2].
  cbv zeta. split; [lia|done].
Qed.

(** Two cards that do not resolve, one of them seen before. *)
Lemma failures_are_recorded_once_witness :
  let cn := {| scryfall := init; world := offline_world;
               db := log_unmapped_card 1 (str "Mystery") empty_db |} in
  let cards := [main_card (str "Mystery"); main_card (str "Enigma")] in
  let r := normalize_deck_cards 2 1 cards cn in
  r.1 = (0, 2) /\
  total_unmapped (db r.2) = total_unmapped (db cn) + r.1.2 /\
  NoDup (um_name <$> unmapped_cards (db r.2)).
Proof.
  intros cn cards. split; [by vm_compute|].
  apply (failures_are_recorded_once 2 1 cards cn).
  vm_compute. apply NoDup_singleton.
Defined.



End DeckNormalizerFacts.

(** ** Pacing and outcomes of a request (src/adapters/base_adapter.py) *)

Section PacingFacts.
Import PyStr BaseAdapter Scenario.

Lemma min_interval_pos (p : Pacer) :
  (0 < rate_limit p)%Q -> (0 < 1 / rate_limit p)%Q.
Proof.
  intros H. unfold Qdiv. rewrite Qmult_1_l. by apply Qinv_lt_0_compat.
Qed.

Lemma rate_limit_step t p :
  (0 < rate_limit p)%Q ->
  (0 <= lateness t)%Q -> (0 <= jitter_draw t)%Q ->
  rate_limit (_rate_limit t p).1 = rate_limit p /\
  (last_request_time p + 1 / rate_limit p
   <= last_request_time (_rate_limit t p).1)%Q.
Proof.
  intros Hr Hl Hj. pose proof (min_interval_pos p Hr) as Hm.
  unfold _rate_limit.
  destruct (Qle_bool (rate_limit p) 0) eqn:E0.
  { apply Qle_bool_iff in E0. lra. }
  set (m := (1 / rate_limit p)%Q) in *.
  destruct (Qle_bool m (clock t - last_request_time p)) eqn:E.
  - apply Qle_bool_iff in E. cbn [fst rate_limit last_request_time].
    split; [done|]. lra.
  - cbn [fst rate_limit last_request_time]. split; [done|].
    assert (Hprod : (0 <= (m * (1 # 10) - 0) * jitter_draw t)%Q).
    { apply Qmult_le_0_compat; [lra|done]. }
    set (x := ((m * (1 # 10) - 0) * jitter_draw t)%Q) in *. lra.
Qed.

(** X20. With a positive rate limit, successive requests of an adapter are
    at least [1 / rate_limit] seconds apart on its own clock readings,
    however late a call comes back and whatever the jitter drawn. *)
Theorem requests_are_spaced ticks : forall p,
  (0 < rate_limit p)%Q ->
  Forall (fun t => (0 <= lateness t)%Q /\ (0 <= jitter_draw t)%Q) ticks ->
  forall i a b,
    (last_request_time p :: request_times ticks p) !! i = Some a ->
    (last_request_time p :: request_times ticks p) !! S i = Some b ->
    (a + 1 / rate_limit p <= b)%Q.
Proof.
  induction ticks as [|t ticks IH]; intros p Hr Hall i a b Ha Hb.
  { destruct i; done. }
  apply Forall_cons in Hall as [[Hl Hj] Hall].
  destruct (rate_limit_step t p Hr Hl Hj) as [Hrate Hstep].
  cbn [request_times] in Ha, Hb.
  destruct i as [|i].
  - cbn in Ha, Hb. injection Ha as <-. injection Hb as <-. exact Hstep.
  - rewrite <- Hrate.
    apply (IH (_rate_limit t p).1) with (i := i); [by rewrite Hrate|done| |].
    + exact Ha.
    + exact Hb.
Qed.

(** Two requests a second with calls at 0.1 s and 0.2 s: the second is
    held back. *)
Lemma requests_are_spaced_witness :
  let p := {| rate_limit := 2; last_request_time := 0 |} in
  let ticks := [ {| clock := 1 # 10; jitter_draw := 1 # 2; lateness := 0 |};
                 {| clock := 2 # 10; jitter_draw := 1 # 2; lateness := 0 |} ] in
  exists a b,
    (last_request_time p :: request_times ticks p) !! 1%nat = Some a /\
    (last_request_time p :: request_times ticks p) !! 2%nat = Some b /\
    (a + 1 / rate_limit p <= b)%Q.
Proof.
  intros p ticks. eexists _, _.
  split; [reflexivity|]. split; [reflexivity|].
  apply (requests_are_spaced ticks p) with (i := 1%nat).
  - reflexivity.
  - repeat constructor; by vm_compute.
  - reflexivity.
  - reflexivity.
Defined.

(** X21. A call of [_rate_limit] that comes when the interval has passed
    does not sleep; one that comes early sleeps for the rest of the
    interval and a jitter of at most a tenth of it, so never for more
    than 1.1 intervals.  With a rate limit that is not positive there
    is no pacing at all. *)
Theorem pacing_sleep_is_bounded t p :
  (0 <= jitter_draw t <= 1)%Q ->
  (last_request_time p <= clock t)%Q ->
  match (_rate_limit t p).2 with
  | Some sleep_time =>
      (0 < rate_limit p)%Q /\
      (clock t - last_request_time p < 1 / rate_limit p)%Q /\
      (1 / rate_limit p - (clock t - last_request_time p) <= sleep_time)%Q /\
      (sleep_time <= (11 # 10) * (1 / rate_limit p))%Q
  | None =>
      ((rate_limit p <= 0)%Q /\ (_rate_limit t p).1 = p) \/
      (1 / rate_limit p <= clock t - last_request_time p)%Q
  end.
Proof.
  intros [Hj0 Hj1] Hc. unfold _rate_limit.
  destruct (Qle_bool (rate_limit p) 0) eqn:E0.
  { apply Qle_bool_iff in E0. cbn. by left. }
  assert (Hr : (0 < rate_limit p)%Q).
  { apply Qnot_le_lt. intros H%Qle_bool_iff. congruence. }
  pose proof (min_interval_pos p Hr) as Hm.
  set (m := (1 / rate_limit p)%Q) in *.
  destruct (Qle_bool m (clock t - last_request_time p)) eqn:E.
  - apply Qle_bool_iff in E. cbn. by right.
  - assert (He : (clock t - last_request_time p < m)%Q).
    { apply Qnot_le_lt. intros H%Qle_bool_iff. congruence. }
    cbn [snd].
    assert (H0 : (0 <= (m * (1 # 10) - 0) * jitter_draw t)%Q).
    { apply Qmult_le_0_compat; [lra|done]. }
    assert (H1 : ((m * (1 # 10) - 0) * jitter_draw t
                  <= (m * (1 # 10) - 0) * 1)%Q).
    { assert (0 <= (m * (1 # 10) - 0) * (1 - jitter_draw t))%Q
        by (apply Qmult_le_0_compat; lra).
      lra. }
    set (x := ((m * (1 # 10) - 0) * jitter_draw t)%Q) in *.
    repeat split; try done; lra.
Qed.

(** An early call and the bounds on its sleep. *)
Lemma pacing_sleep_is_bounded_witness :
  let p := {| rate_limit := 2; last_request_time := 0 |} in
  let t := {| clock := 1 # 10; jitter_draw := 1; lateness := 0 |} in
  match (_rate_limit t p).2 with
  | Some sleep_time =>
      (0 < rate_limit p)%Q /\
      (clock t - last_request_time p < 1 / rate_limit p)%Q /\
      (1 / rate_limit p - (clock t - last_request_time p) <= sleep_time)%Q /\
      (sleep_time <= (11 # 10) * (1 / rate_limit p))%Q
  | None =>
      ((rate_limit p <= 0)%Q /\ (_rate_limit t p).1 = p) \/
      (1 / rate_limit p <= clock t - last_request_time p)%Q
  end.
Proof.
  intros p t. apply (pacing_sleep_is_bounded t p).
  - split; by vm_compute.
  - by vm_compute.
Defined.

Lemma request_loop_returned cfg env attempts : forall r,
  (request_loop cfg env attempts).1 = Returned r ->
  status_code r <> 429 /\ is_http_error r = false /\
  exists attempt,
    attempt ∈ attempts /\ get env attempt = Some r /\
    last (request_loop cfg env attempts).2 = Some (EvGet attempt).
Proof.
  induction attempts as [|a rest IH]; intros r Hr; [done|].
  cbn [request_loop] in *.
  assert (Hexc : (on_request_exception cfg env a
                    (request_loop cfg env rest)).1 = Returned r ->
                 (request_loop cfg env rest).1 = Returned r /\
                 (on_request_exception cfg env a
                    (request_loop cfg env rest)).2
                 = EvGet a :: EvBackoff
                     (Qpower (backoff_base cfg) (Z.of_nat a) + jitter env a)%Q
                     :: (request_loop cfg env rest).2).
  { unfold on_request_exception.
    destruct (Z.of_nat a <? max_retries cfg); [|done].
    by destruct (Qle_bool 0 _). }
  assert (Hlast : forall e1 e2 evs a',
            last evs = Some (EvGet a') ->
            last (e1 :: e2 :: evs) = Some (EvGet a')).
  { intros e1 e2 evs a' H. rewrite !last_cons, H. done. }
  destruct (get env a) as [response|] eqn:Eg.
  - destruct (status_code response =? 429) eqn:E429.
    + destruct (retry_after_seconds response) as [seconds|]; [|done].
      destruct (seconds <? 0); [done|].
      destruct (request_loop cfg env rest) as [out evs] eqn:El.
      cbn [fst snd] in *. destruct (IH r Hr) as (H1 & H2 & a' & Ha & Hg & Hl).
      split; [done|]. split; [done|]. exists a'.
      split; [set_solver|]. split; [done|]. by apply Hlast.
    + destruct (is_http_error response) eqn:Eerr.
      * destruct (Hexc Hr) as [Hr' ->].
        destruct (IH r Hr') as (H1 & H2 & a' & Ha & Hg & Hl).
        split; [done|]. split; [done|]. exists a'.
        split; [set_solver|]. split; [done|]. by apply Hlast.
      * cbn [fst snd] in *. injection Hr as <-.
        split; [lia|]. split; [done|]. exists a.
        split; [set_solver|]. done.
  - destruct (Hexc Hr) as [Hr' ->].
    destruct (IH r Hr') as (H1 & H2 & a' & Ha & Hg & Hl).
    split; [done|]. split; [done|]. exists a'.
    split; [set_solver|]. split; [done|]. by apply Hlast.
Qed.

(** X22. A response that [_make_request] returns is never a rate-limit
    signal nor a 4xx or 5xx: it is the answer to one of the
    [max_retries + 1] attempts, and that request is the last thing the
    call did. *)
Theorem returned_response_is_usable cfg env r :
  (_make_request cfg env).1 = Returned r ->
  status_code r <> 429 /\ is_http_error r = false /\
  exists attempt,
    Z.of_nat attempt <= max_retries cfg /\
    get env attempt = Some r /\
    last (_make_request cfg env).2 = Some (EvGet attempt).
Proof.
  unfold _make_request.
  pose proof (request_loop_returned cfg env
                (seq 0 (Z.to_nat (max_retries cfg + 1))) r) as H.
  destruct (request_loop _ _ _) as [out evs]. cbn [fst snd] in *.
  intros Hr. destruct (H Hr) as (H1 & H2 & a & Ha & Hg & Hl).
  split; [done|]. split; [done|]. exists a.
  apply list_elem_of_In, in_seq in Ha.
  split; [lia|]. split; [done|].
  destruct evs as [|e evs]; [done|]. by rewrite last_cons, Hl.
Qed.

(** A server error, a connection error, and then an answer. *)
Lemma returned_response_is_usable_witness :
  let cfg := {| max_retries := 3; backoff_base := 2 |} in
  let busy := {| status_code := 503; retry_after := HeaderAbsent;
                 body := [] |} in
  let env := scripted [Some busy; None; Some ok_response] in
  (_make_request cfg env).1 = Returned ok_response /\
  status_code ok_response <> 429 /\ is_http_error ok_response = false /\
  exists attempt,
    Z.of_nat attempt <= max_retries cfg /\
    get env attempt = Some ok_response /\
    last (_make_request cfg env).2 = Some (EvGet attempt).
Proof.
  intros cfg busy env. split; [by vm_compute|].
  apply (returned_response_is_usable cfg env ok_response).
  by vm_compute.
Defined.

Lemma request_loop_none cfg env attempts :
  (forall a, last attempts = Some a -> max_retries cfg <= Z.of_nat a) ->
  (request_loop cfg env attempts).1 = ReturnedNone ->
  attempts = [] \/
  exists a r, last attempts = Some a /\ get env a = Some r /\
              status_code r = 429.
Proof.
  induction attempts as [|a rest IH]; intros Hmax Hn; [by left|]. right.
  cbn [request_loop] in Hn.
  assert (Hexc : (on_request_exception cfg env a
                    (request_loop cfg env rest)).1 = ReturnedNone ->
                 (request_loop cfg env rest).1 = ReturnedNone /\
                 Z.of_nat a < max_retries cfg).
  { unfold on_request_exception.
    destruct (Z.of_nat a <? max_retries cfg) eqn:E; [|done].
    destruct (Qle_bool 0 _); [|done]. intros H. split; [done|lia]. }
  assert (Hrest : (request_loop cfg env rest).1 = ReturnedNone ->
                  rest <> [] ->
                  exists a0 r, last (a :: rest) = Some a0 /\
                    get env a0 = Some r /\ status_code r = 429).
  { intros H Hne. destruct IH as [->|(a0 & r & Hl & Hg & Hs)]; [|done|done|].
    - intros a0 Hl. apply Hmax. destruct rest; [done|].
      by rewrite last_cons, Hl.
    - exists a0, r. split; [|done]. destruct rest; [done|].
      by rewrite last_cons, Hl. }
  destruct (get env a) as [response|] eqn:Eg.
  - destruct (status_code response =? 429) eqn:E429.
    + destruct (retry_after_seconds response) as [seconds|]; [|done].
      destruct (seconds <? 0); [done|].
      assert (Hn' : (request_loop cfg env rest).1 = ReturnedNone).
      { revert Hn. by destruct (request_loop cfg env rest). }
      destruct rest as [|b rest].
      * exists a, response. split; [done|]. split; [done|lia].
      * by apply Hrest.
    + destruct (is_http_error response); [|done].
      destruct (Hexc Hn) as [Hn' Ha].
      destruct rest as [|b rest]; [|by apply Hrest].
      specialize (Hmax a eq_refl). lia.
  - destruct (Hexc Hn) as [Hn' Ha].
    destruct rest as [|b rest]; [|by apply Hrest].
    specialize (Hmax a eq_refl). lia.
Qed.

(** X23. [_make_request] falls out of its loop, returning nothing where its
    callers expect a response, only when the answer to the last of the
    [max_retries + 1] attempts was a rate-limit signal. *)
Theorem nothing_returned_after_last_rate_limit cfg env :
  0 <= max_retries cfg ->
  (_make_request cfg env).1 = ReturnedNone ->
  exists r,
    get env (Z.to_nat (max_retries cfg)) = Some r /\ status_code r = 429.
Proof.
  intros Hm. unfold _make_request.
  pose proof (request_loop_none cfg env
                (seq 0 (Z.to_nat (max_retries cfg + 1)))) as H.
  replace (Z.to_nat (max_retries cfg + 1))
    with (S (Z.to_nat (max_retries cfg))) in * by lia.
  rewrite seq_S in H. rewrite seq_S.
  destruct (request_loop _ _ _) as [out evs]. cbn [fst] in *.
  intros Hn. destruct H as [He|(a & r & Hl & Hg & Hs)]; [|done| |].
  - intros a. rewrite last_snoc. intros [= <-]. lia.
  - by destruct (seq 0 (Z.to_nat (max_retries cfg))).
  - exists r. split; [|done].
    rewrite last_snoc in Hl. cbn in Hl. by injection Hl as <-.
Qed.

(** Two attempts, both answered with a rate-limit signal. *)
Lemma nothing_returned_after_last_rate_limit_witness :
  let cfg := {| max_retries := 1; backoff_base := 2 |} in
  let env := scripted [Some (too_many_requests 1);
                       Some (too_many_requests 1)] in
  exists r,
    get env (Z.to_nat (max_retries cfg)) = Some r /\ status_code r = 429.
Proof.
  intros cfg env.
  apply (nothing_returned_after_last_rate_limit cfg env).
  - by vm_compute.
  - by vm_compute.
Defined.

Lemma request_loop_cons_fail cfg env a rest :
  attempt_fails env a ->
  request_loop cfg env (a :: rest)
  = on_request_exception cfg env a (request_loop cfg env rest).
Proof.
  unfold attempt_fails. cbn [request_loop].
  destruct (get env a) as [r|]; [|done].
  intros [H429 Herr]. destruct (status_code r =? 429) eqn:E; [lia|].
  by rewrite Herr.
Qed.

Lemma request_loop_all_fail cfg env n : forall a,
  (0 <= backoff_base cfg)%Q ->
  (forall i, (0 <= jitter env i)%Q) ->
  (forall i, (a <= i < a + S n)%nat -> attempt_fails env i) ->
  Z.of_nat (a + n) = max_retries cfg ->
  request_loop cfg env (seq a (S n))
  = (RaisedRequestException, failing_run cfg env (seq a (S n))).
Proof.
  induction n as [|n IH]; intros a Hb Hj Hfail Hmax.
  - change (seq a 1) with [a].
    rewrite request_loop_cons_fail by (apply Hfail; lia).
    cbn [request_loop failing_run]. unfold on_request_exception.
    destruct (Z.of_nat a <? max_retries cfg) eqn:E; [lia|done].
  - change (seq a (S (S n))) with (a :: seq (S a) (S n)).
    rewrite request_loop_cons_fail by (apply Hfail; lia).
    rewrite IH; [|done|done|intros i Hi; apply Hfail; lia|lia].
    unfold on_request_exception.
    destruct (Z.of_nat a <? max_retries cfg) eqn:E; [|lia].
    assert (Hw : (0 <= Qpower (backoff_base cfg) (Z.of_nat a)
                       + jitter env a)%Q).
    { pose proof (Qpower_0_le (backoff_base cfg) (Z.of_nat a) Hb).
      pose proof (Hj a). lra. }
    apply Qle_bool_iff in Hw. rewrite Hw. reflexivity.
Qed.

(** X24. When every attempt fails with a connection error or a 4xx or 5xx
    other than 429, [_make_request] paces once, issues exactly
    [max_retries + 1] requests with a back-off of
    [backoff_base ** attempt] plus the jitter between them, none after
    the last, and raises. *)
Theorem exhausted_retries_raise cfg env :
  0 <= max_retries cfg ->
  (0 <= backoff_base cfg)%Q ->
  (forall i, (0 <= jitter env i)%Q) ->
  (forall i, Z.of_nat i <= max_retries cfg -> attempt_fails env i) ->
  let attempts := seq 0 (Z.to_nat (max_retries cfg + 1)) in
  _make_request cfg env
  = (RaisedRequestException, EvPace :: failing_run cfg env attempts) /\
  gets (_make_request cfg env).2 = attempts.
Proof.
  intros Hm Hb Hj Hfail attempts. unfold _make_request.
  subst attempts.
  replace (Z.to_nat (max_retries cfg + 1))
    with (S (Z.to_nat (max_retries cfg))) by lia.
  rewrite (request_loop_all_fail cfg env (Z.to_nat (max_retries cfg)) 0);
    [|done|done|intros i Hi; apply Hfail; lia|lia].
  split; [done|]. cbn [snd].
  generalize (Z.to_nat (max_retries cfg)). intros n.
  change (gets (EvPace :: failing_run cfg env (seq 0 (S n))))
    with (gets (failing_run cfg env (seq 0 (S n)))).
  generalize 0%nat. induction n as [|n IH]; intros a; [done|].
  change (seq a (S (S n))) with (a :: seq (S a) (S n)).
  cbn [failing_run]. cbn [seq]. fold (seq (S (S a)) n).
  change (S a :: seq (S (S a)) n) with (seq (S a) (S n)).
  rewrite gets_cons by done. by rewrite IH.
Qed.

(** Two retries allowed and a server that never answers. *)
Lemma exhausted_retries_raise_witness :
  let cfg := {| max_retries := 2; backoff_base := 2 |} in
  let env := scripted [] in
  let attempts := seq 0 (Z.to_nat (max_retries cfg + 1)) in
  _make_request cfg env
  = (RaisedRequestException, EvPace :: failing_run cfg env attempts) /\
  gets (_make_request cfg env).2 = attempts.
Proof.
  intros cfg env.
  apply (exhausted_retries_raise cfg env).
  - by vm_compute.
  - by vm_compute.
  - intros i. by vm_compute.
  - intros i _. unfold attempt_fails. cbn. by rewrite lookup_nil.
Defined.

End PacingFacts.

(** ** What the adapters hand to the database
       (src/adapters/archidekt.py, src/adapters/moxfield.py) *)

Section AdapterFacts.
Import PyStr Database Scenario.

Lemma starts_with_app pre : forall s,
  starts_with pre s = true <-> exists t, s = pre ++ t.
Proof.
  induction pre as [|a pre IH]; intros s.
  { split; [by exists s|done]. }
  destruct s as [|b s]; cbn [starts_with].
  { split; [done|]. by intros [t Ht]. }
  rewrite andb_true_iff, N.eqb_eq, IH. split.
  - intros [-> [t ->]]. by exists t.
  - intros [t [= -> ->]]. split; [done|]. by exists t.
Qed.

Lemma contains_single c s : contains [c] s = true <-> c ∈ s.
Proof.
  induction s as [|b s IH]; cbn [contains starts_with].
  { split; [done|]. by intros H%elem_of_nil. }
  rewrite orb_true_iff, andb_true_r, N.eqb_eq, IH, elem_of_cons.
  done.
Qed.

Lemma split_single_miss c a : forall cur,
  c ∉ a -> split_from [c] 0 cur a = [rev cur ++ a].
Proof.
  induction a as [|x a IH]; intros cur Hc.
  { cbn. by rewrite app_nil_r. }
  cbn [split_from starts_with].
  destruct (N.eqb_spec c x) as [->|Hne]; [set_solver|]. cbn [andb].
  rewrite IH by set_solver. cbn [rev]. by rewrite <- app_assoc.
Qed.

Lemma split_single_hit c a rest : forall cur,
  c ∉ a ->
  split_from [c] 0 cur (a ++ c :: rest)
  = (rev cur ++ a) :: split_from [c] 0 [] rest.
Proof.
  induction a as [|x a IH]; intros cur Hc.
  { cbn [app split_from starts_with length Nat.sub].
    rewrite N.eqb_refl. cbn [andb]. by rewrite app_nil_r. }
  cbn [app split_from starts_with].
  destruct (N.eqb_spec c x) as [->|Hne]; [set_solver|]. cbn [andb].
  rewrite IH by set_solver. cbn [rev]. by rewrite <- app_assoc.
Qed.

Lemma isdigit_no_slash part :
  isdigit part = true -> (47%N ∉ part) /\ part <> [].
Proof.
  unfold isdigit. destruct part as [|x part]; [done|].
  intros H. split; [|done]. intros Hin.
  apply forallb_forall with (x := 47%N) in H; [done|].
  by apply list_elem_of_In.
Qed.

(** A link yields an identifier exactly when it has the form
    /decks/<digits>/<anything>: the identifier is then the run of
    digits.  A link to /decks/<digits> without the slash that follows
    yields none. *)
Lemma deck_id_of_href_spec href part :
  Archidekt.deck_id_of_href href = Some part <->
  isdigit part = true /\
  exists rest, href = str "/decks/" ++ part ++ str "/" ++ rest.
Proof.
  unfold Archidekt.deck_id_of_href. split.
  - destruct (starts_with (str "/decks/") href) eqn:Es; [|done].
    apply starts_with_app in Es as [t ->].
    change (drop 7 (str "/decks/" ++ t)) with t.
    destruct (contains (str "/") t) eqn:Ec; [|done]. cbn [andb].
    apply (contains_single 47%N) in Ec.
    apply list_elem_of_split_l in Ec as (a & rest & -> & Ha).
    assert (Hsplit : split (str "/") (str "/decks/" ++ a ++ 47%N :: rest)
                     = [] :: str "decks" :: a
                         :: split_from [47%N] 0 [] rest).
    { unfold split.
      change (str "/decks/" ++ a ++ 47%N :: rest)
        with ([] ++ 47%N :: (str "decks" ++ 47%N :: (a ++ 47%N :: rest))).
      change (str "/") with [47%N].
      rewrite split_single_hit by set_solver.
      rewrite split_single_hit by (vm_compute; set_solver).
      by rewrite split_single_hit. }
    rewrite Hsplit. cbn [lookup list_lookup length].
    destruct (isdigit a) eqn:Ed; [|by rewrite andb_false_r].
    intros [= <-]. split; [done|]. by exists rest.
  - intros [Hd [rest ->]].
    destruct (isdigit_no_slash part Hd) as [Hns Hne].
    assert (Hs : starts_with (str "/decks/")
                   (str "/decks/" ++ part ++ str "/" ++ rest) = true)
      by (apply starts_with_app; by eexists).
    rewrite Hs.
    change (drop 7 (str "/decks/" ++ part ++ str "/" ++ rest))
      with (part ++ str "/" ++ rest).
    assert (Hc : contains (str "/") (part ++ str "/" ++ rest) = true).
    { apply (contains_single 47%N). set_solver. }
    rewrite Hc. cbn [andb].
    assert (Hsplit : split (str "/") (str "/decks/" ++ part ++ str "/" ++ rest)
                     = [] :: str "decks" :: part
                         :: split_from [47%N] 0 [] rest).
    { unfold split.
      change (str "/decks/" ++ part ++ str "/" ++ rest)
        with ([] ++ 47%N :: (str "decks" ++ 47%N :: (part ++ 47%N :: rest))).
      change (str "/") with [47%N].
      rewrite split_single_hit by set_solver.
      rewrite split_single_hit by (vm_compute; set_solver).
      by rewrite split_single_hit. }
    rewrite Hsplit. cbn [lookup list_lookup length]. by rewrite Hd.
Qed.

(** X25. The identifiers taken from the links of a page are exactly the runs
    of digits of its links of the form /decks/<digits>/<anything>, each
    of them once. *)
Theorem page_identifiers_are_deck_links links :
  let ids := Archidekt._extract_deck_ids_from_html (page_of_links links) in
  NoDup ids /\
  forall part,
    part ∈ ids <->
    isdigit part = true /\
    exists rest, str "/decks/" ++ part ++ str "/" ++ rest ∈ links.
Proof.
  unfold Archidekt._extract_deck_ids_from_html, Archidekt.list_set.
  cbn [page_of_links Archidekt.hrefs]. split; [apply NoDup_elements|].
  intros part. rewrite elem_of_elements, elem_of_list_to_set.
  rewrite list_elem_of_omap. split.
  - intros (href & Hin & Hid). apply deck_id_of_href_spec in Hid as [Hd [rest ->]].
    split; [done|]. by exists rest.
  - intros [Hd [rest Hin]]. eexists. split; [exact Hin|].
    apply deck_id_of_href_spec. split; [done|]. by exists rest.
Qed.

Lemma stdlib_filter_fmap {A B} (p : B -> bool) (f : A -> B) l :
  List.filter p (f <$> l) = f <$> List.filter (fun x => p (f x)) l.
Proof.
  induction l as [|x l IH]; [done|].
  rewrite fmap_cons. cbn [List.filter].
  destruct (p (f x)); [rewrite fmap_cons|]; by rewrite IH.
Qed.


Lemma stdlib_filter_none {A} (p : A -> bool) l :
  (forall x, p x = false) -> List.filter p l = [].
Proof.
  intros H. induction l as [|x l IH]; [done|].
  cbn [List.filter]. by rewrite H.
Qed.


(** X27. [normalize_moxfield_deck] lists the mainboard in the main zone and
    then every commander once more as a card of the command zone with
    quantity 1: the command zone of the cards is the commanders, and the
    count of the validation step is the sum of the mainboard
    quantities, commanders left out. *)
Theorem moxfield_commanders_are_command_cards raw deck_id :
  let d := Moxfield.normalize_moxfield_deck raw deck_id in
  source_deck_id d = deck_id /\
  zone_cards (str "main") d = Moxfield.main_entry <$> Moxfield.raw_mainboard raw /\
  zone_cards (str "command") d = Moxfield.cmd_entry <$> commanders d /\
  cards d = zone_cards (str "main") d ++ zone_cards (str "command") d /\
  length (commanders d) = length (Moxfield.raw_commanders raw) /\
  Moxfield.total_main d
  = foldr Z.add 0
      ((fun e => default 1 (Moxfield.entry_quantity e))
       <$> Moxfield.raw_mainboard raw).
Proof.
  unfold Moxfield.normalize_moxfield_deck, Moxfield.total_main, zone_cards.
  cbn [source_deck_id cards commanders].
  set (mains := Moxfield.main_entry <$> Moxfield.raw_mainboard raw).
  set (cmds := Moxfield.cmd_entry
                 <$> (Moxfield.commander_info <$> Moxfield.raw_commanders raw)).
  assert (Hmm : List.filter
                  (fun c => bool_decide (ce_zone c = Some (str "main"))) mains
                = mains).
  { apply filter_all. intros c (e & -> & _)%list_elem_of_fmap. done. }
  assert (Hmc : List.filter
                  (fun c => bool_decide (ce_zone c = Some (str "command"))) mains
                = []).
  { unfold mains. rewrite stdlib_filter_fmap.
    by rewrite stdlib_filter_none. }
  assert (Hcc : List.filter
                  (fun c => bool_decide (ce_zone c = Some (str "command"))) cmds
                = cmds).
  { apply filter_all. intros c (e & -> & _)%list_elem_of_fmap. done. }
  assert (Hcm : List.filter
                  (fun c => bool_decide (ce_zone c = Some (str "main"))) cmds
                = []).
  { unfold cmds. rewrite stdlib_filter_fmap.
    by rewrite stdlib_filter_none. }
  rewrite !List.filter_app, Hmm, Hmc, Hcc, Hcm, app_nil_r. cbn [app].
  repeat split; [by rewrite length_fmap|].
  unfold mains. rewrite <- !list_fmap_compose. done.
Qed.

(** X28. [get_total_pages] is the number of pages needed for the count the
    server reports: with a positive page size, the least number of
    pages that hold that many decks. *)
Theorem total_pages_cover_the_count total_count page_size :
  0 < page_size -> 0 <= total_count ->
  let pages := Archidekt.get_total_pages (Some total_count) page_size in
  0 <= pages /\
  (pages - 1) * page_size < total_count <= pages * page_size.
Proof.
  intros Hp Hc. unfold Archidekt.get_total_pages.
  destruct (page_size =? 0) eqn:E; [lia|]. cbv zeta.
  pose proof (Z.div_mod (total_count + page_size - 1) page_size ltac:(lia)).
  pose proof (Z.mod_pos_bound (total_count + page_size - 1) page_size Hp).
  set (q := (total_count + page_size - 1) `div` page_size) in *.
  nia.
Qed.

(** 101 decks in pages of 50. *)
Lemma total_pages_cover_the_count_witness :
  let pages := Archidekt.get_total_pages (Some 101) 50 in
  pages = 3 /\
  0 <= pages /\ (pages - 1) * 50 < 101 <= pages * 50.
Proof.
  intros pages. split; [reflexivity|].
  apply (total_pages_cover_the_count 101 50); lia.
Defined.

End AdapterFacts.

(** ** Decks side by side (src/orchestration/ingestion_job.py,
       src/db/database.py) *)

Section IsolationFacts.
Import PyStr Database IngestionJob Scenario.

Lemma next_id_fresh ids : 0 < next_id ids /\ next_id ids ∉ ids.
Proof.
  unfold next_id.
  assert (H : 0 <= foldr Z.max 0 ids /\ forall x, x ∈ ids -> x <= foldr Z.max 0 ids).
  { induction ids as [|y ids [IH0 IH]]; cbn [foldr].
    { split; [lia|]. by intros x Hx%elem_of_nil. }
    split; [lia|]. intros x [->|Hx]%elem_of_cons; [lia|].
    specialize (IH x Hx). lia. }
  destruct H as [H0 H]. split; [lia|]. intros Hin%H. lia.
Qed.

Lemma filter_under {A} (p q : A -> bool) l :
  (forall x, p x = true -> q x = true) ->
  List.filter p (List.filter q l) = List.filter p l.
Proof.
  intros H. induction l as [|x l IH]; [done|].
  cbn [List.filter]. destruct (q x) eqn:Eq.
  - cbn [List.filter]. by rewrite IH.
  - rewrite IH. destruct (p x) eqn:Ep; [|done].
    apply H in Ep. congruence.
Qed.

Lemma upsert_deck_ids now source sdid d db :
  let r := upsert_deck now source sdid d db in
  (deck_id <$> decks r.2 = deck_id <$> decks db /\
   deck_key <$> decks r.2 = deck_key <$> decks db /\
   r.1 ∈ deck_id <$> decks db) \/
  (deck_id <$> decks r.2 = (deck_id <$> decks db) ++ [r.1] /\
   (exists source_id,
      deck_key <$> decks r.2 = (deck_key <$> decks db) ++ [(source_id, sdid)]) /\
   (r.1 ∉ deck_id <$> decks db) /\ 0 < r.1).
Proof.
  unfold upsert_deck.
  pose proof (get_source_id_spec source db) as Hs.
  destruct (get_source_id source db) as [sid db1].
  cbv zeta in Hs. cbn [fst snd] in Hs. destruct Hs as (Hd & _ & _ & _).
  rewrite Hd.
  destruct (List.find (deck_matches sid sdid) (decks db)) as [row|] eqn:Ef.
  - left. cbn [fst snd decks set_decks].
    rewrite <- !list_fmap_compose. split; [|split].
    + apply list_fmap_ext. intros ? r _. cbn. by case_bool_decide.
    + apply list_fmap_ext. intros ? r _. cbn. by case_bool_decide.
    + apply find_some in Ef as [Hin _]. apply list_elem_of_In in Hin.
      apply list_elem_of_fmap. by exists row.
  - right. cbn [fst snd decks set_decks].
    rewrite !fmap_app. cbn [fmap list_fmap deck_id].
    destruct (next_id_fresh (deck_id <$> decks db)) as [Hpos Hfresh].
    split; [done|]. split; [by exists sid|]. done.
Qed.

(** X29. Persisting a deck touches the card and commander rows of that deck
    only: the rows of every other deck id are what they were.  No deck
    row is removed or given another id or key; the deck either had a
    row, and the table has the same ids and keys as before, or it gets
    one row at the end, under a positive id no row had.  The table of
    unresolved names is left alone. *)
Theorem persist_deck_leaves_other_decks now source d db :
  let id := (upsert_deck now source (source_deck_id d) d db).1 in
  let db' := persist_deck now source d db in
  (forall id', id' <> id ->
     card_rows id' db' = card_rows id' db /\
     commander_rows id' db' = commander_rows id' db) /\
  ((deck_id <$> decks db' = deck_id <$> decks db /\
    deck_key <$> decks db' = deck_key <$> decks db /\
    id ∈ deck_id <$> decks db) \/
   (deck_id <$> decks db' = (deck_id <$> decks db) ++ [id] /\
    (exists source_id,
       deck_key <$> decks db'
       = (deck_key <$> decks db) ++ [(source_id, source_deck_id d)]) /\
    (id ∉ deck_id <$> decks db) /\ 0 < id)) /\
  unmapped_cards db' = unmapped_cards db.
Proof.
  unfold persist_deck.
  pose proof (upsert_deck_ids now source (source_deck_id d) d db) as Hids.
  pose proof (upsert_deck_spec now source (source_deck_id d) d db) as Hsp.
  assert (Hum : unmapped_cards (upsert_deck now source (source_deck_id d) d db).2
                = unmapped_cards db).
  { unfold upsert_deck, get_source_id.
    destruct (List.find _ (sources db)); cbn;
      by destruct (List.find _ _). }
  destruct (upsert_deck now source (source_deck_id d) d db) as [id db1].
  cbv zeta in Hids, Hsp. cbn [fst snd] in *.
  destruct Hsp as (Hc & Hm & _).
  assert (Hcards : forall id', id' <> id ->
            card_rows id' (insert_deck_cards id (cards d) true db1)
            = card_rows id' db).
  { intros id' Hne. unfold card_rows, insert_deck_cards.
    cbn [deck_cards set_deck_cards]. rewrite List.filter_app, Hc.
    rewrite filter_under.
    2:{ intros x Hx%bool_decide_eq_true. apply negb_true_iff.
        apply bool_decide_eq_false. congruence. }
    rewrite stdlib_filter_fmap.
    rewrite (stdlib_filter_none
               (fun x => bool_decide (dc_deck_id (card_row id x) = id'))).
    + cbn [fmap list_fmap]. by rewrite app_nil_r.
    + intros x. cbn. by apply bool_decide_eq_false. }
  assert (Hcmds : forall id' cs db2, id' <> id ->
            commander_rows id' (insert_deck_commanders id cs db2)
            = commander_rows id' db2).
  { intros id' cs db2 Hne. unfold commander_rows, insert_deck_commanders.
    assert (Hk : List.filter (fun r => bool_decide (dcm_deck_id r = id'))
                   (List.filter
                      (fun r => negb (bool_decide (dcm_deck_id r = id)))
                      (deck_commanders db2))
                 = List.filter (fun r => bool_decide (dcm_deck_id r = id'))
                     (deck_commanders db2)).
    { apply filter_under. intros x Hx%bool_decide_eq_true.
      apply negb_true_iff. apply bool_decide_eq_false. congruence. }
    destruct cs as [|c cs]; cbn [deck_commanders set_deck_commanders];
      [done|].
    rewrite List.filter_app, Hk.
    rewrite stdlib_filter_fmap.
    rewrite (stdlib_filter_none
               (fun x => bool_decide
                  (dcm_deck_id (commander_row id x) = id'))).
    + cbn [fmap list_fmap]. by rewrite app_nil_r.
    + intros x. cbn. by apply bool_decide_eq_false. }
  destruct (commanders d) as [|c cs] eqn:Ecs.
  - split; [|split].
    + intros id' Hne. split; [by apply Hcards|].
      unfold commander_rows, insert_deck_cards.
      cbn [deck_commanders set_deck_cards]. by rewrite Hm.
    + exact Hids.
    + exact Hum.
  - split; [|split].
    + intros id' Hne. split.
      * rewrite <- (Hcards id' Hne). unfold card_rows, insert_deck_commanders.
        reflexivity.
      * rewrite Hcmds by done. unfold commander_rows, insert_deck_cards.
        cbn [deck_commanders set_deck_cards]. by rewrite Hm.
    + exact Hids.
    + exact Hum.
Qed.

End IsolationFacts.

(** ** The list of commanders to crawl (src/crawler.py) *)

Section CrawlerFacts.
Import PyStr Crawler.





End CrawlerFacts.
